(** * Alveo-PYNQ, notebook "Kernel Optimizations": the sliced execution loops

    The notebook [1-kernel-optimizations.ipynb] drives the [vadd_wide_mb]
    kernel over ten slices of three device-mirrored buffers, first serially
    (cell 27) and then with transfers overlapped with the running kernel
    (cell 33).  This file embeds both cells over an explicit model of the
    accelerator runtime (host copy, device copy, one compute unit, a log of
    the runtime calls) and proves the ordering and result properties of the
    two loops. *)

From Stdlib Require Import ZArith List Lia Bool.
From stdpp Require Import base list.
Import ListNotations.

Local Open Scope Z_scope.

(** ** Data model *)

(** A slice is one [1024 x 1024] plane of ['u4'] elements, kept flat. *)
Abbreviation slice := (list Z).

(** A buffer is the list of its slices along the leading dimension. *)
Abbreviation buffer := (list (list Z)).

(** The three buffers of cell 25: [in1_iter], [in2_iter], [out_iter]. *)
Inductive buf_name : Type := In1 | In2 | Out.

(** [buf[i]] is a view: it names a slice of a buffer and shares its
    storage. *)
Definition view : Type := (buf_name * nat)%type.

(** One copy (host side or device side) of the three buffers. *)
Record memory : Type := Memory {
  mem_in1 : buffer;
  mem_in2 : buffer;
  mem_out : buffer
}.

Definition mem_get (b : buf_name) (mu : memory) : buffer :=
  match b with
  | In1 => mem_in1 mu
  | In2 => mem_in2 mu
  | Out => mem_out mu
  end.

Definition mem_set (b : buf_name) (x : buffer) (mu : memory) : memory :=
  match b with
  | In1 => Memory x (mem_in2 mu) (mem_out mu)
  | In2 => Memory (mem_in1 mu) x (mem_out mu)
  | Out => Memory (mem_in1 mu) (mem_in2 mu) x
  end.

Definition read (v : view) (mu : memory) : slice :=
  default [] (mem_get (fst v) mu !! snd v).

Definition write (v : view) (s : slice) (mu : memory) : memory :=
  mem_set (fst v) (<[snd v := s]> (mem_get (fst v) mu)) mu.

(** The argument binding of one kernel invocation:
    [start(a, b, c, count)] and [call(a, b, c, count)]. *)
Record handle : Type := Handle {
  arg_a : view;
  arg_b : view;
  arg_c : view;
  arg_count : Z
}.

#[global] Instance buf_name_eq_dec : EqDecision buf_name.
Proof. solve_decision. Defined.

#[global] Instance handle_eq_dec : EqDecision handle.
Proof. solve_decision. Defined.

(** The handle of the invocation on slice [i] of the three buffers. *)
Definition slice_handle (count : Z) (i : nat) : handle :=
  Handle (In1, i) (In2, i) (Out, i) count.

(** The slice an invocation is identified by: the one it writes. *)
Definition handle_slice (h : handle) : nat := snd (arg_c h).

(** The runtime calls the notebook makes, as they are logged. *)
Inductive event : Type :=
| SyncToDevice (v : view)
| SyncFromDevice (v : view)
| Call (h : handle)
| Start (h : handle)
| Wait (h : handle).

#[global] Instance event_eq_dec : EqDecision event.
Proof. solve_decision. Defined.

(** How an invocation ends: normally, with a fault that [wait] reports in
    its return value, or with a fault that [wait] raises. *)
Inductive completion : Type := Completed | Faulted | Raises.

Inductive phase : Type := TransferIn | Invoke | TransferOut.

(** Exceptions.  [IndexError] is the array library's, [RuntimeError] and
    [DispatchError] are the runtime's; [InvalidArgument] and
    [InvocationFailure] are the error values of the specification's
    taxonomy. *)
Inductive exn : Type :=
| IndexError
| RuntimeError
| DispatchError
| InvalidArgument
| InvocationFailure (i : nat) (p : phase).

Inductive result (A : Type) : Type :=
| Ok (a : A)
| Exn (e : exn).
Arguments Ok {A} a.
Arguments Exn {A} e.

(** The machine: both copies of the buffers, the invocation the compute
    unit holds (with the number of transfers that still complete before the
    kernel body runs, [None] once it has run), and the log. *)
Record machine : Type := Machine {
  host : memory;
  dev : memory;
  pending : option (handle * option nat);
  log : list event
}.

Definition set_host (mu : memory) (m : machine) : machine :=
  Machine mu (dev m) (pending m) (log m).
Definition set_dev (mu : memory) (m : machine) : machine :=
  Machine (host m) mu (pending m) (log m).
Definition set_pending (p : option (handle * option nat)) (m : machine) : machine :=
  Machine (host m) (dev m) p (log m).
Definition add_log (e : event) (m : machine) : machine :=
  Machine (host m) (dev m) (pending m) (log m ++ [e]).

(** The two copies: host slice to device, device slice to host. *)
Definition to_device (v : view) (m : machine) : machine :=
  set_dev (write v (read v (host m)) (dev m)) m.
Definition from_device (v : view) (m : machine) : machine :=
  set_host (write v (read v (dev m)) (host m)) m.

(** A machine that has just been set up: nothing in flight, nothing
    logged. *)
Definition boot (h d : memory) : machine := Machine h d None [].

(** A small machine to run the loops on: three slices of two elements. *)
Definition example_host : memory :=
  Memory [[1; 2]; [3; 4]; [5; 6]] [[10; 20]; [30; 40]; [50; 60]] [[0; 0]; [0; 0]; [0; 0]].

Definition example_dev : memory :=
  Memory [[0; 0]; [0; 0]; [0; 0]] [[0; 0]; [0; 0]; [0; 0]] [[7; 7]; [7; 7]; [7; 7]].

(** ** Programs: state and exceptions *)

Definition M (A : Type) : Type := machine -> result A * machine.

Definition ret {A} (a : A) : M A := fun m => (Ok a, m).

Definition raise {A} (e : exn) : M A := fun m => (Exn e, m).

Definition bind {A B} (c : M A) (k : A -> M B) : M B :=
  fun m =>
    match c m with
    | (Ok a, m') => k a m'
    | (Exn e, m') => (Exn e, m')
    end.

Declare Scope prog_scope.
Delimit Scope prog_scope with prog.
Bind Scope prog_scope with M.

Notation "'let!' x ':=' c 'in' k" := (bind c (fun x => k))
  (at level 10, x name, c at level 100, k at level 200) : prog_scope.
Notation "c '>>' k" := (bind c (fun _ => k))
  (at level 80, right associativity) : prog_scope.

Local Open Scope prog_scope.

(** [for i in l: body(i)]. *)
Fixpoint for_each (l : list nat) (body : nat -> M unit) : M unit :=
  match l with
  | [] => ret tt
  | i :: l' => body i >> for_each l' body
  end.

(** Python's [range(n)] and [range(lo, hi)]. *)
Definition range (n : nat) : list nat := seq 0 n.
Definition range2 (lo hi : nat) : list nat := seq lo (hi - lo).

(** Python's [if c: body]. *)
Definition when (c : bool) (body : M unit) : M unit :=
  if c then body else ret tt.

(** The exceptions of the array library and of the runtime, and the
    programs that raise no other. *)
Definition runtime_exn (e : exn) : Prop :=
  e = IndexError \/ e = RuntimeError \/ e = DispatchError.

Definition tame {A} (c : M A) : Prop :=
  forall m e m', c m = (Exn e, m') -> runtime_exn e.

(** ** The kernel *)

(** ['u4'] addition. *)
Definition add_u32 (x y : Z) : Z := (x + y) mod 2 ^ 32.

(** Modelled from the spec: the [vadd_wide_multibanks] kernel lives in the
    bitstream [kernel_opt.xclbin], which is not part of the repository.
    The notebook describes it as a vector addition over 32-bit elements,
    and the spec as the elementwise add: it writes [count] sums into [c]
    and leaves the rest of [c] alone. *)
Definition vadd (a b c : slice) (count : Z) : slice :=
  let s := zip_with add_u32 (take (Z.to_nat count) a) (take (Z.to_nat count) b) in
  s ++ drop (length s) c.

(** [pynq.allocate((n, sz), 'u4')]: a buffer of [n] slices of [sz]
    elements each.  The notebook allocates its three buffers with the
    same literal shape. *)
Definition buffer_shape (n sz : nat) (x : buffer) : Prop :=
  length x = n /\ Forall (fun s => length s = sz) x.

(** [in1 + in2] and [np.array_equal] on buffers of ['u4'].  [np_add] is
    numpy's addition of two operands of the same shape, as the notebook's
    buffers are; on operands of different shapes numpy broadcasts or
    raises [ValueError], which [np_add] does not model, so it is only
    used under [buffer_shape] or [has_shape]. *)
Definition np_add (x y : buffer) : buffer := zip_with (zip_with add_u32) x y.

Definition slice_eqb (s t : slice) : bool :=
  (length s =? length t)%nat && forallb (fun p => Z.eqb (fst p) (snd p)) (zip s t).

Definition np_array_equal (x y : buffer) : bool :=
  (length x =? length y)%nat && forallb (fun p => slice_eqb (fst p) (snd p)) (zip x y).

(** [np.random.randint(hi, ...)]: every element is in [[0, hi)]. *)
Definition in_range (hi : Z) (x : buffer) : Prop :=
  Forall (Forall (fun v => 0 <= v < hi)) x.

(** The sums over the integers, with no wrap-around. *)
Definition exact_add (x y : buffer) : buffer := zip_with (zip_with Z.add) x y.

(** ** The runtime

    The loops call the accelerator runtime (the external [pynq] library)
    and numpy.  Their calls are modelled after what the notebook says of
    them and after the runtime interface of the specification (section
    6): transfers are blocking copies between the two copies of a slice,
    [start] returns a handle at once, [wait] blocks until the invocation
    is over, and the kernel body runs at some point in between. *)

Section Runtime.

(** [sched i]: how many transfers complete after [start] on slice [i]
    before the kernel body runs (it runs at [wait] at the latest).
    [outcome i]: how the invocation on slice [i] ends.
    [size]: the scalar [count] argument, [1024*1024] in the notebook. *)
Variable sched : nat -> nat.
Variable outcome : nat -> completion.
Variable size : Z.

(** The kernel body on the device copy.  A faulting invocation writes
    nothing. *)
Definition execute (h : handle) (m : machine) : machine :=
  match outcome (handle_slice h) with
  | Completed =>
      set_dev (write (arg_c h)
                 (vadd (read (arg_a h) (dev m)) (read (arg_b h) (dev m))
                       (read (arg_c h) (dev m)) (arg_count h))
                 (dev m)) m
  | _ => m
  end.

(** The kernel body runs when its delay has elapsed. *)
Definition run_due (m : machine) : machine :=
  match pending m with
  | Some (h, Some O) => execute h (set_pending (Some (h, None)) m)
  | _ => m
  end.

(** One transfer has completed. *)
Definition tick (m : machine) : machine :=
  match pending m with
  | Some (h, Some (S c)) => run_due (set_pending (Some (h, Some c)) m)
  | _ => m
  end.

(** The invocation in flight is over. *)
Definition settle (m : machine) : machine :=
  match pending m with
  | Some (h, Some _) => set_pending None (execute h m)
  | Some (h, None) => set_pending None m
  | None => m
  end.

(** numpy's index normalisation on the leading dimension. *)
Definition py_index (len : nat) (i : Z) : option nat :=
  if (0 <=? i) && (i <? Z.of_nat len) then Some (Z.to_nat i)
  else if (- Z.of_nat len <=? i) && (i <? 0) then Some (Z.to_nat (Z.of_nat len + i))
  else None.

(** [buf[i]]. *)
Definition getitem (b : buf_name) (i : Z) : M view :=
  fun m =>
    match py_index (length (mem_get b (host m))) i with
    | Some j => (Ok (b, j), m)
    | None => (Exn IndexError, m)
    end.

(** [v.sync_to_device()]: blocking copy of the host slice to the device. *)
Definition sync_to_device (v : view) : M unit :=
  fun m => (Ok tt, tick (to_device v (add_log (SyncToDevice v) m))).

(** [v.sync_from_device()]: blocking copy of the device slice to the host. *)
Definition sync_from_device (v : view) : M unit :=
  fun m => (Ok tt, tick (from_device v (add_log (SyncFromDevice v) m))).

(** [kernel.start(a, b, c, count)]: returns at once with a handle.  A
    second start while the compute unit is busy is a [DispatchError]. *)
Definition start (a b c : view) (count : Z) : M handle :=
  fun m =>
    match pending m with
    | Some _ => (Exn DispatchError, m)
    | None =>
        let h := Handle a b c count in
        (Ok h, run_due (set_pending (Some (h, Some (sched (handle_slice h))))
                          (add_log (Start h) m)))
    end.

Definition handle_eqb (h k : handle) : bool :=
  bool_decide (h = k).

(** [handle.wait()]: blocks until the invocation is over and returns how it
    ended, or raises. *)
Definition wait (h : handle) : M completion :=
  fun m =>
    let m1 := add_log (Wait h) m in
    let m2 := match pending m1 with
              | Some (k, _) => if handle_eqb h k then settle m1 else m1
              | None => m1
              end in
    match outcome (handle_slice h) with
    | Raises => (Exn RuntimeError, m2)
    | r => (Ok r, m2)
    end.

(** [kernel.call(a, b, c, count)]: the synchronous invocation. *)
Definition call (a b c : view) (count : Z) : M unit :=
  fun m =>
    match pending m with
    | Some _ => (Exn DispatchError, m)
    | None =>
        let h := Handle a b c count in
        let m1 := execute h (add_log (Call h) m) in
        match outcome (handle_slice h) with
        | Raises => (Exn RuntimeError, m1)
        | _ => (Ok tt, m1)
        end
    end.

(** ** The notebook's loops

    Both cells run under [%%timeit], which repeats them; one run of each
    is embedded. *)

(** Cell 27, with the slice count [10] as the parameter [n]:
<<
for i in range(10):
    in1_iter[i].sync_to_device()
    in2_iter[i].sync_to_device()
    vadd_wide_mb.call(in1_iter[i], in2_iter[i], out_iter[i], size)
    out_iter[i].sync_from_device()
>> *)
Definition serial_body (i : nat) : M unit :=
  let! v := getitem In1 (Z.of_nat i) in sync_to_device v >>
  let! v := getitem In2 (Z.of_nat i) in sync_to_device v >>
  let! a := getitem In1 (Z.of_nat i) in
  let! b := getitem In2 (Z.of_nat i) in
  let! c := getitem Out (Z.of_nat i) in
  call a b c size >>
  let! v := getitem Out (Z.of_nat i) in sync_from_device v.

Definition serial_loop (n : nat) : M unit :=
  for_each (range n) serial_body.

(** Cell 33, with [10] as [n] and [9] as [n - 1]:
<<
in1_iter[0].sync_to_device()
in2_iter[0].sync_to_device()
for i in range(10):
    handle = vadd_wide_mb.start(in1_iter[i], in2_iter[i], out_iter[i], size)
    if i < 9:
        in1_iter[i+1].sync_to_device()
        in2_iter[i+1].sync_to_device()
    if i > 0:
        out_iter[i-1].sync_from_device()
    handle.wait()
out_iter[9].sync_from_device()
>> *)
Definition overlapped_body (n i : nat) : M unit :=
  let! a := getitem In1 (Z.of_nat i) in
  let! b := getitem In2 (Z.of_nat i) in
  let! c := getitem Out (Z.of_nat i) in
  let! handle := start a b c size in
  when (Z.of_nat i <? Z.of_nat n - 1)
    ((let! v := getitem In1 (Z.of_nat i + 1) in sync_to_device v) >>
     (let! v := getitem In2 (Z.of_nat i + 1) in sync_to_device v)) >>
  when (Z.of_nat i >? 0)
    (let! v := getitem Out (Z.of_nat i - 1) in sync_from_device v) >>
  let! _ := wait handle in ret tt.

Definition overlapped_loop (n : nat) : M unit :=
  (let! v := getitem In1 0 in sync_to_device v) >>
  (let! v := getitem In2 0 in sync_to_device v) >>
  for_each (range n) (overlapped_body n) >>
  (let! v := getitem Out (Z.of_nat n - 1) in sync_from_device v).

(** The two cells with the notebook's own literals. *)
Definition cell27 : M unit := serial_loop 10.

Definition cell33 : M unit :=
  (let! v := getitem In1 0 in sync_to_device v) >>
  (let! v := getitem In2 0 in sync_to_device v) >>
  for_each (range 10) (fun i =>
    let! a := getitem In1 (Z.of_nat i) in
    let! b := getitem In2 (Z.of_nat i) in
    let! c := getitem Out (Z.of_nat i) in
    let! handle := start a b c size in
    when (Z.of_nat i <? 9)
      ((let! v := getitem In1 (Z.of_nat i + 1) in sync_to_device v) >>
       (let! v := getitem In2 (Z.of_nat i + 1) in sync_to_device v)) >>
    when (Z.of_nat i >? 0)
      (let! v := getitem Out (Z.of_nat i - 1) in sync_from_device v) >>
    let! _ := wait handle in ret tt) >>
  (let! v := getitem Out 9 in sync_from_device v).

(** The specification's [run_overlapped] generalises cell 33 to a
    [pipeline_depth]; the repository itself has depth 1 only.  Its three
    steps are written with the notebook's runtime calls. *)

(** Modelled from the spec: step 1 of section 4.1 for a depth the notebook
    does not have; priming transfers in slice [j] of both inputs. *)
Definition prime_step (j : nat) : M unit :=
  (let! v := getitem In1 (Z.of_nat j) in sync_to_device v) >>
  (let! v := getitem In2 (Z.of_nat j) in sync_to_device v).

(** Modelled from the spec: step 3 of section 4.1 for a depth the notebook
    does not have; draining transfers out slice [j] of the output. *)
Definition drain_step (j : nat) : M unit :=
  let! v := getitem Out (Z.of_nat j) in sync_from_device v.

(** Modelled from the spec: step 2 of section 4.1 for a depth the notebook
    does not have; iteration [i] starts the invocation on slice [i],
    transfers in slice [i + depth] if [i + depth < slice_count], transfers
    out slice [i - depth] if [i - depth >= 0], and waits on the handle. *)
Definition pipeline_step (n depth i : nat) : M unit :=
  let! a := getitem In1 (Z.of_nat i) in
  let! b := getitem In2 (Z.of_nat i) in
  let! c := getitem Out (Z.of_nat i) in
  let! handle := start a b c size in
  when (i + depth <? n)%nat (prime_step (i + depth)) >>
  when (depth <=? i)%nat (drain_step (i - depth)) >>
  let! _ := wait handle in ret tt.

(** Modelled from the spec: [run_overlapped] with [pipeline_depth], absent
    from the repository (cell 33 is its depth 1 instance): prime slices
    [0 .. depth-1], run the [slice_count] iterations, drain slices
    [slice_count - depth .. slice_count - 1].  The argument validation and
    the failure tagging of the specification have no counterpart in the
    notebook and are not part of this schedule. *)
Definition run_overlapped (n depth : nat) : M unit :=
  for_each (range depth) prime_step >>
  for_each (range n) (pipeline_step n depth) >>
  for_each (range2 (n - depth) n) drain_step.

(** ** The loops as sequences of effects

    The same calls in program order, with the kernel body run at its
    start: what each loop does to the machine when nothing raises. *)

Definition xfer_in (j : nat) (m : machine) : machine :=
  to_device (In2, j) (add_log (SyncToDevice (In2, j))
    (to_device (In1, j) (add_log (SyncToDevice (In1, j)) m))).

Definition xfer_out (j : nat) (m : machine) : machine :=
  from_device (Out, j) (add_log (SyncFromDevice (Out, j)) m).

Definition serial_effect (i : nat) (m : machine) : machine :=
  xfer_out i (execute (slice_handle size i)
    (add_log (Call (slice_handle size i)) (xfer_in i m))).

Definition step_effect (n depth i : nat) (m : machine) : machine :=
  let m1 := execute (slice_handle size i) (add_log (Start (slice_handle size i)) m) in
  let m2 := if (i + depth <? n)%nat then xfer_in (i + depth) m1 else m1 in
  let m3 := if (depth <=? i)%nat then xfer_out (i - depth) m2 else m2 in
  add_log (Wait (slice_handle size i)) m3.

Definition iterate (f : nat -> machine -> machine) (l : list nat) (m : machine) : machine :=
  fold_left (fun acc i => f i acc) l m.

Definition overlapped_effect (n depth : nat) (m : machine) : machine :=
  iterate xfer_out (seq (n - depth) depth)
    (iterate (step_effect n depth) (seq 0 n)
       (iterate xfer_in (seq 0 depth) m)).

(** The invocation in flight, and the views it is bound to. *)
Definition in_flight (m : machine) : option handle :=
  match pending m with
  | Some (h, _) => Some h
  | None => None
  end.

Definition disjoint_from (v : view) (h : handle) : Prop :=
  v <> arg_a h /\ v <> arg_b h /\ v <> arg_c h.

Definition quiet (v : view) (m : machine) : Prop :=
  forall h, in_flight m = Some h -> disjoint_from v h.

Definition hlen (b : buf_name) (m : machine) : nat :=
  length (mem_get b (host m)).

(** ** Logs *)

(** The calls each piece of the loops logs, in program order. *)
Definition in_events (j : nat) : list event :=
  [SyncToDevice (In1, j); SyncToDevice (In2, j)].

Definition out_events (j : nat) : list event :=
  [SyncFromDevice (Out, j)].

Definition serial_events (i : nat) : list event :=
  in_events i ++ [Call (slice_handle size i)] ++ out_events i.

Definition step_events (n depth i : nat) : list event :=
  [Start (slice_handle size i)]
  ++ (if (i + depth <? n)%nat then in_events (i + depth) else [])
  ++ (if (depth <=? i)%nat then out_events (i - depth) else [])
  ++ [Wait (slice_handle size i)].

Definition overlapped_trace (n depth : nat) : list event :=
  flat_map in_events (seq 0 depth)
  ++ flat_map (step_events n depth) (seq 0 n)
  ++ flat_map out_events (seq (n - depth) depth).

Definition is_invocation (e : event) : bool :=
  match e with
  | Start _ | Wait _ => true
  | _ => false
  end.

Definition is_transfer_in (e : event) : bool :=
  match e with
  | SyncToDevice _ => true
  | _ => false
  end.

(** The view a transfer targets. *)
Definition event_view (e : event) : option view :=
  match e with
  | SyncToDevice v | SyncFromDevice v => Some v
  | _ => None
  end.

(** The invocation outstanding after a log: the last [Start] with no
    [Wait] after it. *)
Definition next_outstanding (cur : option handle) (e : event) : option handle :=
  match e with
  | Start h => Some h
  | Wait _ => None
  | _ => cur
  end.

Definition outstanding (cur : option handle) (t : list event) : option handle :=
  fold_left next_outstanding t cur.

(** Log monitor: every event comes after the events it needs. *)
Fixpoint respects (needs : event -> list event) (past t : list event) : bool :=
  match t with
  | [] => true
  | e :: t' =>
      forallb (fun r => bool_decide (r ∈ past)) (needs e)
      && respects needs (e :: past) t'
  end.


(** A transfer out of slice [j] needs the wait on slice [j]'s handle. *)
Definition needs_result (e : event) : list event :=
  match e with
  | SyncFromDevice v => [Wait (slice_handle size (snd v))]
  | _ => []
  end.

(** Log monitor: while an invocation is outstanding no other invocation
    is issued, and every transfer passes [ok]. *)
Fixpoint single_owner (ok : handle -> event -> bool)
    (cur : option handle) (t : list event) : bool :=
  match t with
  | [] => true
  | e :: t' =>
      match cur, e with
      | Some h, (SyncToDevice _ | SyncFromDevice _) => ok h e
      | Some _, (Start _ | Call _) => false
      | _, _ => true
      end && single_owner ok (next_outstanding cur e) t'
  end.

(** The slice of a transfer differs from every slice the handle is bound
    to, and it is the one the schedule of the given depth transfers. *)
Definition overlap_ok (depth : nat) (h : handle) (e : event) : bool :=
  match e with
  | SyncToDevice v =>
      negb (snd v =? snd (arg_a h))%nat && negb (snd v =? snd (arg_b h))%nat
      && negb (snd v =? snd (arg_c h))%nat
      && (snd v =? handle_slice h + depth)%nat
  | SyncFromDevice v =>
      negb (snd v =? snd (arg_a h))%nat && negb (snd v =? snd (arg_b h))%nat
      && negb (snd v =? snd (arg_c h))%nat
      && (snd v + depth =? handle_slice h)%nat
  | _ => true
  end.

(** ** Shapes and the reference result *)

(** The three buffers of a copy have [n] slices of [sz] elements. *)
Definition has_slices (n : nat) (mu : memory) : Prop :=
  forall b, length (mem_get b mu) = n.

Definition has_shape (n sz : nat) (mu : memory) : Prop :=
  forall b, length (mem_get b mu) = n /\ Forall (fun s => length s = sz) (mem_get b mu).

(** Slice [j] of [in1 + in2]. *)
Definition sum_slice (hm : memory) (j : nat) : list Z :=
  zip_with add_u32 (read (In1, j) hm) (read (In2, j) hm).

(** Progress of a run over [n] slices of [sz] elements with inputs [hm]:
    slices below [p] are on the device, slices below [c] are computed on
    the device, slices below [o] are back on the host. *)
Record progress (hm : memory) (n sz p c o : nat) (m : machine) : Prop := Progress {
  pg_in1 : mem_in1 (host m) = mem_in1 hm;
  pg_in2 : mem_in2 (host m) = mem_in2 hm;
  pg_hout : length (mem_out (host m)) = n;
  pg_dlen : forall b, length (mem_get b (dev m)) = n;
  pg_olen : forall j, (j < n)%nat -> length (read (Out, j) (dev m)) = sz;
  pg_loaded : forall j, (j < p)%nat -> (j < n)%nat ->
      read (In1, j) (dev m) = read (In1, j) hm /\ read (In2, j) (dev m) = read (In2, j) hm;
  pg_computed : forall j, (j < c)%nat -> read (Out, j) (dev m) = sum_slice hm j;
  pg_stored : forall j, (j < o)%nat -> read (Out, j) (host m) = sum_slice hm j
}.

(** The machine is ready for a loop over [n] slices: the compute unit is
    idle and every buffer has at least [n] slices. *)
Definition ready (n : nat) (m : machine) : Prop :=
  pending m = None /\ forall b, (n <= hlen b m)%nat.

(** ** The other cells of the notebook *)

(** A buffer of the shape of [x] holding the draws [rnd i j], for
    element [j] of slice [i]. *)
Definition drawn (rnd : nat -> nat -> Z) (x : buffer) : buffer :=
  imap (fun i s => imap (fun j _ => rnd i j) s) x.

(** [buf[:] = np.random.randint(1000, size=..., dtype='u4')] (cells 3, 15,
    25 and 31): a write to the host copy that keeps the shape.  The
    device copy is not touched. *)
Definition randomize (b : buf_name) (rnd : nat -> nat -> Z) : M unit :=
  fun m =>
    (Ok tt, set_host (mem_set b (drawn rnd (mem_get b (host m))) (host m)) m).

(** [buf[:] = x] for a scalar [x] (cell 31, [out_iter[:] = 0]). *)
Definition fill (b : buf_name) (x : Z) : M unit :=
  fun m =>
    (Ok tt,
     set_host (mem_set b (map (map (fun _ => x)) (mem_get b (host m))) (host m)) m).

(** [np.array_equal(out, in1 + in2)] (cells 9, 21, 29 and 35): it looks
    at the host copies. *)
Definition reference_check : M bool :=
  fun m =>
    (Ok (np_array_equal (mem_out (host m))
           (np_add (mem_in1 (host m)) (mem_in2 (host m)))), m).

(** In examples 1 and 2 each buffer is a single [1024 x 1024] plane, and
    the calls are made on the whole buffer: its only slice. *)
Definition whole (b : buf_name) : view := (b, 0%nat).

(** Cells 5 and 17:
<<
in1.sync_to_device()
in2.sync_to_device()
vadd_wide.call(in1, in2, out, size)
out.sync_from_device()
>> *)
Definition cell5 : M unit :=
  sync_to_device (whole In1) >>
  sync_to_device (whole In2) >>
  call (whole In1) (whole In2) (whole Out) size >>
  sync_from_device (whole Out).

(** Cells 7 and 19: [vadd_wide.call(in1, in2, out, size)] alone. *)
Definition cell7 : M unit :=
  call (whole In1) (whole In2) (whole Out) size.

(** Cell 31:
<<
in1_iter[:] = np.random.randint(1000, size=(10, 1024, 1024), dtype='u4')
in2_iter[:] = np.random.randint(1000, size=(10, 1024, 1024), dtype='u4')
out_iter[:] = 0
>> *)
Definition cell31 (r1 r2 : nat -> nat -> Z) : M unit :=
  randomize In1 r1 >> randomize In2 r2 >> fill Out 0.

(** Example 3 from the random initialisation of cell 25 to the check of
    cell 35, with the slice count as [n]: initialise, run the serial loop,
    check, initialise again and clear the output, run the overlapped
    loop, check.  The result is the pair of the two checks. *)
Definition example3 (n : nat) (r1 r2 r3 r4 : nat -> nat -> Z) : M (bool * bool) :=
  randomize In1 r1 >> randomize In2 r2 >>
  serial_loop n >>
  let! ok1 := reference_check in
  cell31 r3 r4 >>
  overlapped_loop n >>
  let! ok2 := reference_check in
  ret (ok1, ok2).

(** [%%timeit] runs its cell again and again: [k] runs in a row. *)
Definition timeit (k : nat) (cell : M unit) : M unit :=
  for_each (range k) (fun _ => cell).

(** The two copies of a run over inputs [a] and [b] that is over: the
    inputs and their sum, on the host and on the device. *)
Definition settled_memory (a b : buffer) : memory := Memory a b (np_add a b).

(** A cell settles buffers of [n] slices of [sz] elements when, run with
    the compute unit idle, it returns normally with the compute unit idle
    again, the inputs as they were and their sum in the output, on the
    host and on the device alike. *)
Definition settles (n sz : nat) (cell : M unit) : Prop :=
  forall m, pending m = None ->
    has_shape n sz (host m) -> has_shape n sz (dev m) ->
    exists m', cell m = (Ok tt, m') /\ pending m' = None /\
               host m' = settled_memory (mem_in1 (host m)) (mem_in2 (host m)) /\
               dev m' = settled_memory (mem_in1 (host m)) (mem_in2 (host m)).

(** Both copies of [m'] hold what [m] holds at the slices from [n] on. *)
Definition untouched (n : nat) (m m' : machine) : Prop :=
  forall b j, (n <= j)%nat ->
    mem_get b (host m') !! j = mem_get b (host m) !! j /\
    mem_get b (dev m') !! j = mem_get b (dev m) !! j.

(** Log monitor: every transfer is issued while an invocation is
    outstanding. *)
Fixpoint all_overlapped (cur : option handle) (t : list event) : bool :=
  match t with
  | [] => true
  | e :: t' =>
      match cur, e with
      | None, (SyncToDevice _ | SyncFromDevice _) => false
      | _, _ => true
      end && all_overlapped (next_outstanding cur e) t'
  end.

(** The iteration of the overlapped loop an event belongs to. *)
Definition iteration_of (depth : nat) (e : event) : nat :=
  match e with
  | SyncToDevice v => (snd v - depth)%nat
  | SyncFromDevice v => (snd v + depth)%nat
  | Call h | Start h | Wait h => handle_slice h
  end.

(** Membership in an explicit list of events. *)
Ltac in_list :=
  unfold in_events, out_events;
  repeat (rewrite ?elem_of_app, ?elem_of_cons); intuition auto.

(** * Properties *)

(** ** Memory and machine bookkeeping *)

Lemma mem_get_set_eq b x mu : mem_get b (mem_set b x mu) = x.
Proof. destruct b; reflexivity. Qed.

Lemma mem_get_set_ne b b' x mu : b <> b' -> mem_get b (mem_set b' x mu) = mem_get b mu.
Proof. destruct b, b'; intros H; try reflexivity; congruence. Qed.

Lemma read_write_ne v w s mu : v <> w -> read v (write w s mu) = read v mu.
Proof.
  destruct v as [b i], w as [b' j]. unfold read, write. simpl. intros H.
  destruct (decide (b = b')) as [->|Hb].
  - rewrite mem_get_set_eq. rewrite list_lookup_insert_ne; [reflexivity|congruence].
  - rewrite mem_get_set_ne by assumption. reflexivity.
Qed.

Lemma read_write_eq v s mu :
  (snd v < length (mem_get (fst v) mu))%nat -> read v (write v s mu) = s.
Proof.
  destruct v as [b i]. unfold read, write. simpl. intros H.
  rewrite mem_get_set_eq. rewrite list_lookup_insert_eq by assumption. reflexivity.
Qed.

Lemma write_write_comm v w s t mu :
  v <> w -> write v s (write w t mu) = write w t (write v s mu).
Proof.
  destruct v as [b i], w as [b' j]. unfold write. simpl. intros H.
  destruct b, b'; simpl; try reflexivity;
    (rewrite list_insert_insert_ne; [reflexivity|congruence]).
Qed.

Lemma length_mem_get_write b v s mu :
  length (mem_get b (write v s mu)) = length (mem_get b mu).
Proof.
  destruct v as [b' i]. unfold write. simpl.
  destruct (decide (b = b')) as [->|Hb].
  - rewrite mem_get_set_eq. apply length_insert.
  - rewrite mem_get_set_ne by assumption. reflexivity.
Qed.

Lemma execute_to_device v h m :
  disjoint_from v h -> execute h (to_device v m) = to_device v (execute h m).
Proof.
  intros (Ha & Hb & Hc). unfold execute. destruct (outcome (handle_slice h)); try reflexivity.
  unfold to_device, set_dev. simpl. f_equal.
  rewrite !read_write_ne by congruence.
  apply write_write_comm. congruence.
Qed.

Lemma execute_from_device v h m :
  disjoint_from v h -> execute h (from_device v m) = from_device v (execute h m).
Proof.
  intros (Ha & Hb & Hc). unfold execute. destruct (outcome (handle_slice h)); try reflexivity.
  unfold from_device, set_dev, set_host. simpl. f_equal.
  rewrite read_write_ne by congruence. reflexivity.
Qed.

Lemma settle_tick m : settle (tick m) = settle m.
Proof.
  destruct m as [hm dm [[h [[|[|c]]|]]|] lg];
    unfold tick, settle, run_due, execute; simpl;
    try destruct (outcome (handle_slice h)); reflexivity.
Qed.

Lemma settle_run_due m : settle (run_due m) = settle m.
Proof.
  destruct m as [hm dm [[h [[|c]|]]|] lg];
    unfold settle, run_due, execute; simpl;
    try destruct (outcome (handle_slice h)); reflexivity.
Qed.

Lemma in_flight_tick m : in_flight (tick m) = in_flight m.
Proof.
  destruct m as [hm dm [[h [[|[|c]]|]]|] lg];
    unfold tick, in_flight, run_due, execute; simpl;
    try destruct (outcome (handle_slice h)); reflexivity.
Qed.

Lemma in_flight_run_due m : in_flight (run_due m) = in_flight m.
Proof.
  destruct m as [hm dm [[h [[|c]|]]|] lg];
    unfold in_flight, run_due, execute; simpl;
    try destruct (outcome (handle_slice h)); reflexivity.
Qed.

Lemma settle_add_log e m : settle (add_log e m) = add_log e (settle m).
Proof.
  destruct m as [hm dm [[h [c|]]|] lg]; try reflexivity.
  unfold settle, execute. simpl.
  destruct (outcome (handle_slice h)); reflexivity.
Qed.

Lemma settle_to_device v m :
  quiet v m -> settle (to_device v m) = to_device v (settle m).
Proof.
  intros Hq. destruct m as [hm dm [[h [c|]]|] lg]; try reflexivity.
  specialize (Hq h eq_refl).
  unfold settle. simpl.
  change (Machine hm (write v (read v hm) dm) (Some (h, Some c)) lg)
    with (to_device v (Machine hm dm (Some (h, Some c)) lg)).
  rewrite execute_to_device by assumption. reflexivity.
Qed.

Lemma settle_from_device v m :
  quiet v m -> settle (from_device v m) = from_device v (settle m).
Proof.
  intros Hq. destruct m as [hm dm [[h [c|]]|] lg]; try reflexivity.
  specialize (Hq h eq_refl).
  unfold settle. simpl.
  change (Machine (write v (read v dm) hm) dm (Some (h, Some c)) lg)
    with (from_device v (Machine hm dm (Some (h, Some c)) lg)).
  rewrite execute_from_device by assumption. reflexivity.
Qed.

Lemma settle_idle m : pending m = None -> settle m = m.
Proof. unfold settle. intros ->. reflexivity. Qed.

Lemma pending_settle m : pending (settle m) = None.
Proof.
  destruct m as [hm dm [[h [c|]]|] lg]; reflexivity.
Qed.

(** ** Running the runtime calls *)

Lemma host_settle m : host (settle m) = host m.
Proof.
  destruct m as [hm dm [[h [c|]]|] lg]; unfold settle, execute; simpl;
    try destruct (outcome (handle_slice h)); reflexivity.
Qed.

Lemma host_tick m : host (tick m) = host m.
Proof.
  destruct m as [hm dm [[h [[|[|c]]|]]|] lg];
    unfold tick, run_due, execute; simpl;
    try destruct (outcome (handle_slice h)); reflexivity.
Qed.

Lemma host_execute h m : host (execute h m) = host m.
Proof. unfold execute. destruct (outcome (handle_slice h)); reflexivity. Qed.

Lemma pending_execute h m : pending (execute h m) = pending m.
Proof. unfold execute. destruct (outcome (handle_slice h)); reflexivity. Qed.

Lemma log_execute h m : log (execute h m) = log m.
Proof. unfold execute. destruct (outcome (handle_slice h)); reflexivity. Qed.

Lemma hlen_to_device b v m : hlen b (to_device v m) = hlen b m.
Proof. reflexivity. Qed.

Lemma hlen_from_device b v m : hlen b (from_device v m) = hlen b m.
Proof. unfold hlen, from_device. simpl. apply length_mem_get_write. Qed.

Lemma hlen_execute b h m : hlen b (execute h m) = hlen b m.
Proof. unfold hlen. rewrite host_execute. reflexivity. Qed.

Lemma hlen_xfer_in b j m : hlen b (xfer_in j m) = hlen b m.
Proof. reflexivity. Qed.

Lemma hlen_xfer_out b j m : hlen b (xfer_out j m) = hlen b m.
Proof. unfold xfer_out. rewrite hlen_from_device. reflexivity. Qed.

Lemma hlen_settle b m : hlen b (settle m) = hlen b m.
Proof. unfold hlen. rewrite host_settle. reflexivity. Qed.

Lemma py_index_nat len i : (i < len)%nat -> py_index len (Z.of_nat i) = Some i.
Proof.
  intros H. unfold py_index.
  replace (0 <=? Z.of_nat i) with true by (symmetry; apply Z.leb_le; lia).
  replace (Z.of_nat i <? Z.of_nat len) with true by (symmetry; apply Z.ltb_lt; lia).
  simpl. rewrite Nat2Z.id. reflexivity.
Qed.

Lemma getitem_ok b i m : (i < hlen b m)%nat -> getitem b (Z.of_nat i) m = (Ok (b, i), m).
Proof. intros H. unfold getitem. fold (hlen b m). rewrite py_index_nat by assumption. reflexivity. Qed.

Lemma log_settle m : log (settle m) = log m.
Proof.
  destruct m as [hm dm [[h [c|]]|] lg]; unfold settle, execute; simpl;
    try destruct (outcome (handle_slice h)); reflexivity.
Qed.

Lemma in_flight_idle m : in_flight m = None -> pending m = None.
Proof. unfold in_flight. destruct (pending m) as [[h c]|]; [discriminate|reflexivity]. Qed.

Lemma quiet_idle v m : pending m = None -> quiet v m.
Proof. intros H h. unfold in_flight. rewrite H. discriminate. Qed.

(** A transfer in of slice [j], whatever the compute unit is doing, as
    long as it is not bound to slice [j]. *)
Lemma prime_step_run j m :
  quiet (In1, j) m -> quiet (In2, j) m ->
  (j < hlen In1 m)%nat -> (j < hlen In2 m)%nat ->
  exists m', prime_step j m = (Ok tt, m') /\ in_flight m' = in_flight m /\
             settle m' = xfer_in j (settle m).
Proof.
  intros Q1 Q2 L1 L2. unfold prime_step, bind.
  rewrite (getitem_ok In1 j m L1). unfold sync_to_device at 1.
  set (m1 := tick (to_device (In1, j) (add_log (SyncToDevice (In1, j)) m))).
  assert (F1 : in_flight m1 = in_flight m) by (unfold m1; rewrite in_flight_tick; reflexivity).
  assert (H1 : host m1 = host m) by (unfold m1; rewrite host_tick; reflexivity).
  assert (S1 : settle m1 = to_device (In1, j) (add_log (SyncToDevice (In1, j)) (settle m))).
  { unfold m1. rewrite settle_tick, settle_to_device, settle_add_log; [reflexivity|].
    intros h Hh. apply Q1. exact Hh. }
  rewrite (getitem_ok In2 j m1) by (unfold hlen; rewrite H1; exact L2).
  unfold sync_to_device.
  eexists. split; [reflexivity|]. split.
  - rewrite in_flight_tick. exact F1.
  - rewrite settle_tick, settle_to_device, settle_add_log, S1; [reflexivity|].
    intros h Hh. apply Q2. rewrite <- F1. exact Hh.
Qed.

(** A transfer out of slice [j], in the same way. *)
Lemma drain_step_run j m :
  quiet (Out, j) m -> (j < hlen Out m)%nat ->
  exists m', drain_step j m = (Ok tt, m') /\ in_flight m' = in_flight m /\
             settle m' = xfer_out j (settle m).
Proof.
  intros Q L. unfold drain_step, bind.
  rewrite (getitem_ok Out j m L). unfold sync_from_device.
  eexists. split; [reflexivity|]. split.
  - rewrite in_flight_tick. reflexivity.
  - rewrite settle_tick, settle_from_device, settle_add_log; [reflexivity|].
    intros h Hh. apply Q. exact Hh.
Qed.

Lemma hlen_of_settle b m c : settle m = c -> hlen b m = hlen b c.
Proof. intros <-. rewrite hlen_settle. reflexivity. Qed.

Lemma wait_run h m :
  in_flight m = Some h ->
  wait h m = (match outcome (handle_slice h) with
              | Raises => Exn RuntimeError
              | r => Ok r
              end, add_log (Wait h) (settle m)).
Proof.
  intros F. unfold wait. rewrite <- settle_add_log.
  unfold in_flight in F. simpl.
  destruct (pending m) as [[k st]|] eqn:E; [|discriminate].
  injection F as ->. unfold handle_eqb. rewrite bool_decide_eq_true_2 by reflexivity.
  destruct (outcome (handle_slice h)); reflexivity.
Qed.

Lemma start_run a b c m :
  pending m = None ->
  exists m', start a b c size m = (Ok (Handle a b c size), m') /\
             in_flight m' = Some (Handle a b c size) /\
             settle m' = execute (Handle a b c size) (add_log (Start (Handle a b c size)) m).
Proof.
  intros P. unfold start. rewrite P. eexists. split; [reflexivity|]. split.
  - rewrite in_flight_run_due. reflexivity.
  - rewrite settle_run_due. destruct m as [hm dm pd lg]. simpl in P. subst pd.
    unfold settle, execute. simpl.
    destruct (outcome (handle_slice (Handle a b c size))); reflexivity.
Qed.

Lemma disjoint_other_slice b j count i : j <> i -> disjoint_from (b, j) (slice_handle count i).
Proof. intros H. unfold disjoint_from, slice_handle. simpl. repeat split; congruence. Qed.

(** One iteration of the pipeline does what [step_effect] says, whenever
    the kernel body really runs between [start] and [wait]. *)
Lemma pipeline_step_run n d i m :
  (0 < d)%nat -> (i < n)%nat -> ready n m ->
  pipeline_step n d i m =
    (match outcome i with Raises => Exn RuntimeError | _ => Ok tt end,
     step_effect n d i m).
Proof.
  intros Hd Hi [P L]. unfold pipeline_step.
  unfold bind at 1. rewrite getitem_ok by (specialize (L In1); lia).
  unfold bind at 1. rewrite getitem_ok by (specialize (L In2); lia).
  unfold bind at 1. rewrite getitem_ok by (specialize (L Out); lia).
  destruct (start_run (In1, i) (In2, i) (Out, i) m P) as (m1 & E1 & F1 & S1).
  unfold bind at 1. rewrite E1. fold (slice_handle size i) in *.
  set (h := slice_handle size i) in *.
  set (c1 := execute h (add_log (Start h) m)) in *.
  assert (L1 : forall b, hlen b m1 = hlen b m).
  { intros b. rewrite (hlen_of_settle b m1 c1 S1). unfold c1. rewrite hlen_execute. reflexivity. }
  set (c2 := if (i + d <? n)%nat then xfer_in (i + d) c1 else c1).
  assert (B2 : exists m2, when (i + d <? n)%nat (prime_step (i + d)) m1 = (Ok tt, m2) /\
                          in_flight m2 = Some h /\ settle m2 = c2).
  { unfold c2, when. destruct (i + d <? n)%nat eqn:C.
    - apply Nat.ltb_lt in C.
      destruct (prime_step_run (i + d) m1) as (m2 & E2 & F2 & S2).
      + intros k Hk. rewrite F1 in Hk. injection Hk as <-. apply disjoint_other_slice. lia.
      + intros k Hk. rewrite F1 in Hk. injection Hk as <-. apply disjoint_other_slice. lia.
      + rewrite L1. specialize (L In1). lia.
      + rewrite L1. specialize (L In2). lia.
      + exists m2. rewrite E2, F2, S2, S1, F1. auto.
    - exists m1. auto. }
  destruct B2 as (m2 & E2 & F2 & S2).
  assert (L2 : forall b, hlen b m2 = hlen b m).
  { intros b. rewrite (hlen_of_settle b m2 c2 S2). unfold c2.
    destruct (i + d <? n)%nat; rewrite ?hlen_xfer_in; unfold c1; rewrite hlen_execute; reflexivity. }
  set (c3 := if (d <=? i)%nat then xfer_out (i - d) c2 else c2).
  assert (B3 : exists m3, when (d <=? i)%nat (drain_step (i - d)) m2 = (Ok tt, m3) /\
                          in_flight m3 = Some h /\ settle m3 = c3).
  { unfold c3, when. destruct (d <=? i)%nat eqn:C.
    - apply Nat.leb_le in C.
      destruct (drain_step_run (i - d) m2) as (m3 & E3 & F3 & S3).
      + intros k Hk. rewrite F2 in Hk. injection Hk as <-. apply disjoint_other_slice. lia.
      + rewrite L2. specialize (L Out). lia.
      + exists m3. rewrite E3, F3, S3, S2, F2. auto.
    - exists m2. auto. }
  destruct B3 as (m3 & E3 & F3 & S3).
  unfold bind. rewrite E2, E3. rewrite (wait_run h m3 F3), S3.
  unfold step_effect. fold h. fold c1. fold c2. fold c3.
  change (handle_slice h) with i.
  destruct (outcome i); reflexivity.
Qed.

Lemma tick_idle m : pending m = None -> tick m = m.
Proof. unfold tick. intros ->. reflexivity. Qed.

Lemma ready_xfer_in n j m : ready n m -> ready n (xfer_in j m).
Proof. intros [P L]. split; [exact P|]. intros b. rewrite hlen_xfer_in. apply L. Qed.

Lemma ready_xfer_out n j m : ready n m -> ready n (xfer_out j m).
Proof. intros [P L]. split; [exact P|]. intros b. rewrite hlen_xfer_out. apply L. Qed.

Lemma ready_execute n h m : ready n m -> ready n (execute h m).
Proof.
  intros [P L]. split; [rewrite pending_execute; exact P|].
  intros b. rewrite hlen_execute. apply L.
Qed.

Lemma ready_add_log n e m : ready n m -> ready n (add_log e m).
Proof. intros [P L]. split; [exact P|exact L]. Qed.

Lemma ready_step_effect n k d i m : ready k m -> ready k (step_effect n d i m).
Proof.
  intros R. unfold step_effect. apply ready_add_log.
  destruct (d <=? i)%nat; [apply ready_xfer_out|];
    (destruct (i + d <? n)%nat; [apply ready_xfer_in|]);
    apply ready_execute, ready_add_log, R.
Qed.

Lemma ready_serial_effect n i m : ready n m -> ready n (serial_effect i m).
Proof.
  intros R. unfold serial_effect.
  apply ready_xfer_out, ready_execute, ready_add_log, ready_xfer_in, R.
Qed.

Lemma ready_iterate n f l m :
  (forall i x, ready n x -> ready n (f i x)) -> ready n m -> ready n (iterate f l m).
Proof.
  intros Hf. revert m. induction l as [|i l IH]; intros m R; simpl; [exact R|].
  apply IH, Hf, R.
Qed.

Lemma prime_step_idle n j m :
  ready n m -> (j < n)%nat -> prime_step j m = (Ok tt, xfer_in j m).
Proof.
  intros [P L] Hj.
  destruct (prime_step_run j m) as (m' & E & F & S).
  - apply quiet_idle; exact P.
  - apply quiet_idle; exact P.
  - specialize (L In1); lia.
  - specialize (L In2); lia.
  - rewrite E. f_equal. rewrite <- (settle_idle m P), <- S.
    symmetry. apply settle_idle, in_flight_idle. rewrite F. unfold in_flight. rewrite P. reflexivity.
Qed.

Lemma drain_step_idle n j m :
  ready n m -> (j < n)%nat -> drain_step j m = (Ok tt, xfer_out j m).
Proof.
  intros [P L] Hj.
  destruct (drain_step_run j m) as (m' & E & F & S).
  - apply quiet_idle; exact P.
  - specialize (L Out); lia.
  - rewrite E. f_equal. rewrite <- (settle_idle m P), <- S.
    symmetry. apply settle_idle, in_flight_idle. rewrite F. unfold in_flight. rewrite P. reflexivity.
Qed.

Lemma call_run a b c m :
  pending m = None ->
  call a b c size m =
    (match outcome (snd c) with Raises => Exn RuntimeError | _ => Ok tt end,
     execute (Handle a b c size) (add_log (Call (Handle a b c size)) m)).
Proof.
  intros P. unfold call. rewrite P. unfold handle_slice. simpl.
  destruct (outcome (snd c)); reflexivity.
Qed.

(** One iteration of the serial loop, when its invocation does not
    raise. *)
Lemma serial_body_run n i m :
  (i < n)%nat -> ready n m -> outcome i <> Raises ->
  serial_body i m = (Ok tt, serial_effect i m).
Proof.
  intros Hi [P L] Ho. unfold serial_body.
  unfold bind at 1. rewrite getitem_ok by (specialize (L In1); lia).
  unfold bind at 1. unfold sync_to_device at 1. rewrite tick_idle by exact P.
  unfold bind at 1.
  rewrite getitem_ok by (specialize (L In2); unfold hlen in *; simpl in *; lia).
  unfold bind at 1. unfold sync_to_device at 1. rewrite tick_idle by exact P.
  change (to_device (In2, i) (add_log (SyncToDevice (In2, i))
            (to_device (In1, i) (add_log (SyncToDevice (In1, i)) m))))
    with (xfer_in i m).
  set (m2 := xfer_in i m).
  assert (R2 : ready n m2) by (apply ready_xfer_in; split; assumption).
  destruct R2 as [P2 L2].
  unfold bind at 1. rewrite getitem_ok by (specialize (L2 In1); lia).
  unfold bind at 1. rewrite getitem_ok by (specialize (L2 In2); lia).
  unfold bind at 1. rewrite getitem_ok by (specialize (L2 Out); lia).
  unfold bind at 1. rewrite call_run by exact P2. simpl snd.
  fold (slice_handle size i).
  assert (R3 : ready n (execute (slice_handle size i) (add_log (Call (slice_handle size i)) m2)))
    by (apply ready_execute, ready_add_log; split; assumption).
  destruct (outcome i) eqn:E; try congruence.
  - change (drain_step i (execute (slice_handle size i)
              (add_log (Call (slice_handle size i)) m2)) = (Ok tt, serial_effect i m)).
    rewrite (drain_step_idle n i _ R3 Hi). reflexivity.
  - change (drain_step i (execute (slice_handle size i)
              (add_log (Call (slice_handle size i)) m2)) = (Ok tt, serial_effect i m)).
    rewrite (drain_step_idle n i _ R3 Hi). reflexivity.
Qed.

(** ** Running the loops *)

Lemma for_each_run (P : machine -> Prop) body f l :
  (forall i m, In i l -> P m -> body i m = (Ok tt, f i m) /\ P (f i m)) ->
  forall m, P m -> for_each l body m = (Ok tt, iterate f l m) /\ P (iterate f l m).
Proof.
  induction l as [|i l IH]; intros Hb m Pm; simpl.
  - split; [reflexivity|exact Pm].
  - destruct (Hb i m (or_introl eq_refl) Pm) as [E Pi].
    unfold bind. rewrite E. apply IH; [|exact Pi].
    intros j x Hj. apply Hb. right. exact Hj.
Qed.

Lemma for_each_app l1 l2 body m :
  for_each (l1 ++ l2) body m =
    (for_each l1 body >> for_each l2 body) m.
Proof.
  revert m. induction l1 as [|i l1 IH]; intros m; simpl.
  - reflexivity.
  - unfold bind. destruct (body i m) as [[[]|e] m']; [|reflexivity].
    rewrite IH. reflexivity.
Qed.

Lemma iterate_app f l1 l2 m : iterate f (l1 ++ l2) m = iterate f l2 (iterate f l1 m).
Proof. unfold iterate. apply fold_left_app. Qed.

Lemma for_each_ext l body body' m :
  (forall i x, body i x = body' i x) -> for_each l body m = for_each l body' m.
Proof.
  intros H. revert m. induction l as [|i l IH]; intros m; simpl; [reflexivity|].
  unfold bind. rewrite H. destruct (body' i m) as [[[]|e] m']; [apply IH|reflexivity].
Qed.

Lemma serial_loop_run n m :
  ready n m -> (forall i, (i < n)%nat -> outcome i <> Raises) ->
  serial_loop n m = (Ok tt, iterate serial_effect (seq 0 n) m).
Proof.
  intros R Ho. unfold serial_loop, range.
  apply (for_each_run (ready n) serial_body serial_effect (seq 0 n)); [|exact R].
  intros i x Hi Rx. apply in_seq in Hi. split.
  - apply (serial_body_run n); [lia|exact Rx|apply Ho; lia].
  - apply ready_serial_effect, Rx.
Qed.

Lemma prime_run n d m :
  (d <= n)%nat -> ready n m ->
  for_each (range d) prime_step m = (Ok tt, iterate xfer_in (seq 0 d) m).
Proof.
  intros Hd R. unfold range.
  apply (for_each_run (ready n) prime_step xfer_in (seq 0 d)); [|exact R].
  intros i x Hi Rx. apply in_seq in Hi. split.
  - apply (prime_step_idle n); [exact Rx|lia].
  - apply ready_xfer_in, Rx.
Qed.

Lemma drain_run n d m :
  (d <= n)%nat -> ready n m ->
  for_each (range2 (n - d) n) drain_step m = (Ok tt, iterate xfer_out (seq (n - d) d) m).
Proof.
  intros Hd R. unfold range2. replace (n - (n - d))%nat with d by lia.
  apply (for_each_run (ready n) drain_step xfer_out (seq (n - d) d)); [|exact R].
  intros i x Hi Rx. apply in_seq in Hi. split.
  - apply (drain_step_idle n); [exact Rx|lia].
  - apply ready_xfer_out, Rx.
Qed.

Lemma steps_run n d lo k m :
  (0 < d)%nat -> (lo + k <= n)%nat -> ready n m ->
  (forall i, (lo <= i < lo + k)%nat -> outcome i <> Raises) ->
  for_each (seq lo k) (pipeline_step n d) m =
    (Ok tt, iterate (step_effect n d) (seq lo k) m).
Proof.
  intros Hd Hk R Ho.
  apply (for_each_run (ready n) (pipeline_step n d) (step_effect n d) (seq lo k)); [|exact R].
  intros i x Hi Rx. apply in_seq in Hi. split.
  - rewrite pipeline_step_run by (try assumption; lia).
    specialize (Ho i Hi). destruct (outcome i); try reflexivity. congruence.
  - apply ready_step_effect, Rx.
Qed.

(** The whole pipeline, when no invocation raises. *)
Lemma run_overlapped_run n d m :
  (0 < d <= n)%nat -> ready n m ->
  (forall i, (i < n)%nat -> outcome i <> Raises) ->
  run_overlapped n d m = (Ok tt, overlapped_effect n d m).
Proof.
  intros Hd R Ho. unfold run_overlapped, overlapped_effect.
  unfold bind at 1. rewrite (prime_run n d m) by (try assumption; lia).
  assert (R1 : ready n (iterate xfer_in (seq 0 d) m))
    by (apply ready_iterate; [intros; apply ready_xfer_in; assumption|exact R]).
  unfold bind at 1. unfold range.
  rewrite (steps_run n d 0 n) by (try assumption; try lia; intros; apply Ho; lia).
  apply drain_run; [lia|].
  apply ready_iterate; [intros; apply ready_step_effect; assumption|exact R1].
Qed.

(** The pipeline when the wait on slice [k] is the first to raise: the
    loop stops right after that wait. *)
Lemma run_overlapped_raise n d k m :
  (0 < d <= n)%nat -> ready n m -> (k < n)%nat ->
  outcome k = Raises -> (forall i, (i < k)%nat -> outcome i <> Raises) ->
  run_overlapped n d m =
    (Exn RuntimeError,
     step_effect n d k (iterate (step_effect n d) (seq 0 k)
                          (iterate xfer_in (seq 0 d) m))).
Proof.
  intros Hd R Hk Hr Ho. unfold run_overlapped.
  unfold bind at 1. rewrite (prime_run n d m) by (try assumption; lia).
  assert (R1 : ready n (iterate xfer_in (seq 0 d) m))
    by (apply ready_iterate; [intros; apply ready_xfer_in; assumption|exact R]).
  unfold bind at 1. unfold range.
  replace n with (k + S (n - S k))%nat at 1 by lia.
  rewrite seq_app, for_each_app. simpl seq. simpl for_each.
  unfold bind at 1.
  rewrite (steps_run n d 0 k) by (try assumption; try lia; intros; apply Ho; lia).
  assert (R2 : ready n (iterate (step_effect n d) (seq 0 k) (iterate xfer_in (seq 0 d) m)))
    by (apply ready_iterate; [intros; apply ready_step_effect; assumption|exact R1]).
  unfold bind at 1. rewrite pipeline_step_run by (try assumption; lia).
  rewrite Hr. reflexivity.
Qed.

(** Cell 33 is the depth 1 pipeline. *)
Lemma overlapped_body_step n i m : overlapped_body n i m = pipeline_step n 1 i m.
Proof.
  unfold overlapped_body, pipeline_step.
  replace (Z.of_nat i <? Z.of_nat n - 1) with (i + 1 <? n)%nat.
  2:{ destruct (i + 1 <? n)%nat eqn:E; symmetry.
      - apply Nat.ltb_lt in E. apply Z.ltb_lt. lia.
      - apply Nat.ltb_ge in E. apply Z.ltb_ge. lia. }
  replace (Z.of_nat i >? 0) with (1 <=? i)%nat.
  2:{ destruct (1 <=? i)%nat eqn:E; symmetry.
      - apply Nat.leb_le in E. apply Z.gtb_lt. lia.
      - apply Nat.leb_gt in E. rewrite Z.gtb_ltb. apply Z.ltb_ge. lia. }
  unfold prime_step, drain_step.
  rewrite Nat2Z.inj_add. change (Z.of_nat 1) with 1.
  destruct (1 <=? i)%nat eqn:E; [|reflexivity].
  apply Nat.leb_le in E. rewrite Nat2Z.inj_sub by exact E. reflexivity.
Qed.

Lemma overlapped_loop_refines n m :
  (1 <= n)%nat -> overlapped_loop n m = run_overlapped n 1 m.
Proof.
  intros Hn. unfold overlapped_loop, run_overlapped, range, range2.
  replace (n - (n - 1))%nat with 1%nat by lia. simpl seq. simpl for_each.
  unfold prime_step, drain_step. rewrite Nat2Z.inj_sub by exact Hn.
  change (Z.of_nat 1) with 1. change (Z.of_nat 0) with 0.
  unfold bind, ret, sync_to_device. cbn beta iota.
  destruct (getitem In1 0 m) as [[v|e] m1]; cbn beta iota; [|reflexivity].
  destruct (getitem In2 0 _) as [[w|e] m2]; cbn beta iota; [|reflexivity].
  rewrite (for_each_ext _ (overlapped_body n) (pipeline_step n 1))
    by (intros; apply overlapped_body_step).
  destruct (for_each (seq 0 n) (pipeline_step n 1) _) as [[[]|e] m3]; cbn beta iota; [|reflexivity].
  destruct (getitem Out (Z.of_nat n - 1) m3) as [[u|e] m4]; reflexivity.
Qed.

Lemma cell33_is_overlapped_loop m : cell33 m = overlapped_loop 10 m.
Proof. reflexivity. Qed.

Lemma cell27_is_serial_loop m : cell27 m = serial_loop 10 m.
Proof. reflexivity. Qed.

(** ** What the loops log *)

Lemma log_xfer_in j m : log (xfer_in j m) = log m ++ in_events j.
Proof. unfold xfer_in, in_events. simpl. rewrite <- app_assoc. reflexivity. Qed.

Lemma log_xfer_out j m : log (xfer_out j m) = log m ++ out_events j.
Proof. reflexivity. Qed.

Lemma log_add_log e m : log (add_log e m) = log m ++ [e].
Proof. reflexivity. Qed.

Lemma log_serial_effect i m : log (serial_effect i m) = log m ++ serial_events i.
Proof.
  unfold serial_effect, serial_events.
  rewrite log_xfer_out, log_execute, log_add_log, log_xfer_in.
  rewrite <- !app_assoc. reflexivity.
Qed.

Lemma log_step_effect n d i m : log (step_effect n d i m) = log m ++ step_events n d i.
Proof.
  unfold step_effect, step_events. rewrite log_add_log.
  destruct (d <=? i)%nat; destruct (i + d <? n)%nat;
    rewrite ?log_xfer_out, ?log_xfer_in, log_execute, log_add_log;
    rewrite <- ?app_assoc; reflexivity.
Qed.

Lemma log_iterate f t l m :
  (forall i x, log (f i x) = log x ++ t i) ->
  log (iterate f l m) = log m ++ flat_map t l.
Proof.
  intros H. revert m. induction l as [|i l IH]; intros m; simpl.
  - rewrite app_nil_r. reflexivity.
  - rewrite IH, H, <- app_assoc. reflexivity.
Qed.

Lemma log_serial n m :
  log (iterate serial_effect (seq 0 n) m) = log m ++ flat_map serial_events (seq 0 n).
Proof. apply log_iterate. intros. apply log_serial_effect. Qed.

Lemma log_overlapped_effect n d m :
  log (overlapped_effect n d m) = log m ++ overlapped_trace n d.
Proof.
  unfold overlapped_effect, overlapped_trace.
  rewrite (log_iterate xfer_out out_events) by (intros; apply log_xfer_out).
  rewrite (log_iterate (step_effect n d) (step_events n d)) by (intros; apply log_step_effect).
  rewrite (log_iterate xfer_in in_events) by (intros; apply log_xfer_in).
  rewrite <- !app_assoc. reflexivity.
Qed.

(** ** The log monitors *)

Lemma respects_app needs past t1 t2 :
  respects needs past (t1 ++ t2) =
    respects needs past t1 && respects needs (rev t1 ++ past) t2.
Proof.
  revert past. induction t1 as [|e t1 IH]; intros past; simpl; [reflexivity|].
  rewrite IH, <- app_assoc, andb_assoc. reflexivity.
Qed.

(** What the monitor checks, said with positions in the log. *)
Lemma respects_sound needs past t :
  respects needs past t = true ->
  forall pre e post r, t = pre ++ e :: post -> In r (needs e) ->
    In r pre \/ In r past.
Proof.
  revert past. induction t as [|x t IH]; intros past H pre e post r E Hr.
  - destruct pre; discriminate.
  - simpl in H. apply andb_prop in H as [H1 H2].
    destruct pre as [|y pre]; simpl in E; injection E as <- ->.
    + right. rewrite forallb_forall in H1. specialize (H1 r Hr).
      apply bool_decide_eq_true_1 in H1. apply list_elem_of_In. exact H1.
    + destruct (IH _ H2 pre e post r eq_refl Hr) as [Hin|Hin].
      * left. right. exact Hin.
      * destruct Hin as [<-|Hin]; [left; left; reflexivity|right; exact Hin].
Qed.

Lemma respects_flat_map needs (I : nat -> list event -> Prop) f :
  forall k lo past,
  (forall i q, (lo <= i < lo + k)%nat -> I i q ->
      respects needs q (f i) = true /\ I (S i) (rev (f i) ++ q)) ->
  I lo past ->
  respects needs past (flat_map f (seq lo k)) = true /\
  I (lo + k)%nat (rev (flat_map f (seq lo k)) ++ past).
Proof.
  induction k as [|k IH]; intros lo past Hf HI; simpl.
  - rewrite Nat.add_0_r. split; [reflexivity|exact HI].
  - destruct (Hf lo past) as [R1 I1]; [lia|exact HI|].
    destruct (IH (S lo) (rev (f lo) ++ past)) as [R2 I2].
    + intros i q Hi. apply Hf. lia.
    + exact I1.
    + rewrite respects_app, R1, R2. split; [reflexivity|].
      rewrite rev_app_distr, <- app_assoc.
      replace (lo + S k)%nat with (S lo + k)%nat by lia. exact I2.
Qed.

Lemma outstanding_app cur t1 t2 :
  outstanding cur (t1 ++ t2) = outstanding (outstanding cur t1) t2.
Proof. unfold outstanding. apply fold_left_app. Qed.

Lemma single_owner_app ok cur t1 t2 :
  single_owner ok cur (t1 ++ t2) =
    single_owner ok cur t1 && single_owner ok (outstanding cur t1) t2.
Proof.
  revert cur. induction t1 as [|e t1 IH]; intros cur; simpl; [reflexivity|].
  rewrite IH, andb_assoc. reflexivity.
Qed.

(** What the monitor checks, said with positions in the log: a transfer
    issued while [h] is outstanding passes [ok], and an invocation is
    only issued when none is outstanding. *)
Lemma single_owner_sound ok cur t :
  single_owner ok cur t = true ->
  forall pre e post h, t = pre ++ e :: post -> outstanding cur pre = Some h ->
    match e with
    | SyncToDevice _ | SyncFromDevice _ => ok h e = true
    | Start _ | Call _ => False
    | Wait _ => True
    end.
Proof.
  revert cur. induction t as [|x t IH]; intros cur H pre e post h E Ho.
  - destruct pre; discriminate.
  - simpl in H. apply andb_prop in H as [H1 H2].
    destruct pre as [|y pre]; simpl in E; injection E as <- ->.
    + unfold outstanding in Ho. simpl in Ho. subst cur.
      destruct x; try exact H1; try discriminate; exact I.
    + apply (IH _ H2 pre e post h eq_refl). exact Ho.
Qed.

Lemma single_owner_flat_map ok (f : nat -> list event) :
  (forall i, single_owner ok None (f i) = true /\ outstanding None (f i) = None) ->
  forall l : list nat, single_owner ok None (flat_map f l) = true /\
            outstanding None (flat_map f l) = None.
Proof.
  intros Hf. induction l as [|i l [IH1 IH2]]; simpl; [split; reflexivity|].
  destruct (Hf i) as [H1 H2].
  rewrite single_owner_app, outstanding_app, H1, H2. split; assumption.
Qed.

(** ** The monitors accept the logs of the loops *)

Lemma elem_of_rev_app (r : event) t q : r ∈ rev t ++ q <-> r ∈ t \/ r ∈ q.
Proof.
  rewrite elem_of_app, !list_elem_of_In, <- in_rev. reflexivity.
Qed.

Lemma single_owner_step n d i :
  (1 <= d)%nat ->
  single_owner (overlap_ok d) None (step_events n d i) = true /\
  outstanding None (step_events n d i) = None.
Proof.
  intros Hd. unfold step_events.
  destruct (i + d <? n)%nat; destruct (d <=? i)%nat eqn:E;
    try apply Nat.leb_le in E; unfold outstanding; simpl; unfold handle_slice; simpl;
    (split; [|reflexivity]);
    repeat (rewrite ?Nat.eqb_refl;
            try (replace (i + d =? i)%nat with false by (symmetry; apply Nat.eqb_neq; lia));
            try (replace (i - d =? i)%nat with false by (symmetry; apply Nat.eqb_neq; lia));
            try (replace (i - d + d =? i)%nat with true by (symmetry; apply Nat.eqb_eq; lia));
            simpl); reflexivity.
Qed.

Lemma single_owner_overlapped n d :
  (1 <= d)%nat -> single_owner (overlap_ok d) None (overlapped_trace n d) = true.
Proof.
  intros Hd. unfold overlapped_trace.
  destruct (single_owner_flat_map (overlap_ok d) in_events
              ltac:(intros; split; reflexivity) (seq 0 d)) as [A1 A2].
  destruct (single_owner_flat_map (overlap_ok d) (step_events n d)
              ltac:(intros; apply single_owner_step; exact Hd) (seq 0 n)) as [B1 B2].
  destruct (single_owner_flat_map (overlap_ok d) out_events
              ltac:(intros; split; reflexivity) (seq (n - d) d)) as [C1 C2].
  rewrite single_owner_app, A1, A2, single_owner_app, B1, B2, C1. reflexivity.
Qed.



Lemma respects_result_overlapped n d :
  (1 <= d <= n)%nat -> respects needs_result [] (overlapped_trace n d) = true.
Proof using Type.
  clear sched outcome. intros Hd. unfold overlapped_trace.
  destruct (respects_flat_map needs_result (fun _ _ => True) in_events d 0 []) as [A1 _].
  { intros i q _ _. split; [reflexivity|exact I]. }
  { exact I. }
  pose (I2 := fun (i : nat) (q : list event) =>
    forall k, (k < i)%nat -> Wait (slice_handle size k) ∈ q).
  destruct (respects_flat_map needs_result I2 (step_events n d) n 0
              (rev (flat_map in_events (seq 0 d)) ++ [])) as [B1 B2].
  { intros i q Hi Hq. split.
    - unfold step_events.
      destruct (i + d <? n)%nat; destruct (d <=? i)%nat eqn:E; simpl; try reflexivity;
        apply Nat.leb_le in E;
        (rewrite bool_decide_eq_true_2; [reflexivity|]);
        (assert (Wait (slice_handle size (i - d)) ∈ q) by (apply Hq; lia));
        in_list.
    - intros k Hk. rewrite elem_of_rev_app.
      destruct (decide (k = i)) as [->|Hne].
      + left. unfold step_events. in_list.
      + right. apply Hq. lia. }
  { intros k Hk. lia. }
  pose (I3 := fun (_ : nat) (q : list event) =>
    forall k, (k < n)%nat -> Wait (slice_handle size k) ∈ q).
  destruct (respects_flat_map needs_result I3 out_events d (n - d)%nat
              (rev (flat_map (step_events n d) (seq 0 n)) ++
               rev (flat_map in_events (seq 0 d)) ++ [])) as [C1 C2].
  { intros i q Hi Hq. split.
    - unfold out_events. simpl.
      rewrite bool_decide_eq_true_2; [reflexivity|]. apply Hq. lia.
    - intros k Hk. rewrite elem_of_rev_app. right. apply Hq. lia. }
  { intros k Hk. apply B2. lia. }
  rewrite !respects_app, A1, B1, C1. reflexivity.
Qed.

(** ** What the loops compute *)

Lemma vadd_full a b c sz :
  length a = sz -> length b = sz -> length c = sz ->
  vadd a b c (Z.of_nat sz) = zip_with add_u32 a b.
Proof.
  intros Ha Hb Hc. unfold vadd. rewrite Nat2Z.id.
  rewrite !take_ge by lia.
  rewrite drop_ge by (rewrite length_zip_with; lia).
  apply app_nil_r.
Qed.

Lemma read_in1_eq j mu mu' : mem_in1 mu = mem_in1 mu' -> read (In1, j) mu = read (In1, j) mu'.
Proof. unfold read. simpl. intros ->. reflexivity. Qed.

Lemma read_in2_eq j mu mu' : mem_in2 mu = mem_in2 mu' -> read (In2, j) mu = read (In2, j) mu'.
Proof. unfold read. simpl. intros ->. reflexivity. Qed.

Lemma progress_add_log hm n sz p c o e m :
  progress hm n sz p c o m -> progress hm n sz p c o (add_log e m).
Proof. intros [H1 H2 H3 H4 H5 H6 H7 H8]. constructor; assumption. Qed.

Lemma progress_weaken hm n sz p c o p' c' o' m :
  progress hm n sz p c o m ->
  (p' <= p \/ n <= p)%nat -> (c' <= c)%nat -> (o' <= o)%nat ->
  progress hm n sz p' c' o' m.
Proof.
  intros [H1 H2 H3 H4 H5 H6 H7 H8] Hp Hc Ho. constructor.
  - exact H1.
  - exact H2.
  - exact H3.
  - exact H4.
  - exact H5.
  - intros j Hj Hn. apply H6; lia.
  - intros j Hj. apply H7; lia.
  - intros j Hj. apply H8; lia.
Qed.

Lemma progress_xfer_in hm n sz c o j m :
  progress hm n sz j c o m -> (j < n)%nat ->
  progress hm n sz (S j) c o (xfer_in j m).
Proof.
  intros [H1 H2 H3 H4 H5 H6 H7 H8] Hj.
  assert (D : dev (xfer_in j m) =
              write (In2, j) (read (In2, j) (host m))
                (write (In1, j) (read (In1, j) (host m)) (dev m))) by reflexivity.
  constructor.
  - exact H1.
  - exact H2.
  - exact H3.
  - intros b. rewrite D, !length_mem_get_write. apply H4.
  - intros k Hk. rewrite D, !read_write_ne by congruence. apply H5. exact Hk.
  - intros k Hk Hn. rewrite D. destruct (decide (k = j)) as [->|Hne].
    + split.
      * rewrite read_write_ne by congruence.
        rewrite read_write_eq by (pose proof (H4 In1) as L; simpl in L |- *; lia).
        apply read_in1_eq. exact H1.
      * rewrite read_write_eq by (pose proof (H4 In2) as L; simpl in L |- *; lia).
        apply read_in2_eq. exact H2.
    + rewrite !read_write_ne by congruence. apply H6; [lia|exact Hn].
  - intros k Hk. rewrite D, !read_write_ne by congruence. apply H7. exact Hk.
  - exact H8.
Qed.

Lemma progress_execute hm n sz p o i m :
  size = Z.of_nat sz -> outcome i = Completed ->
  length (read (In1, i) hm) = sz -> length (read (In2, i) hm) = sz ->
  progress hm n sz p i o m -> (i < p)%nat -> (i < n)%nat ->
  progress hm n sz p (S i) o (execute (slice_handle size i) m).
Proof.
  intros Hs Ho L1 L2 [H1 H2 H3 H4 H5 H6 H7 H8] Hp Hn.
  destruct (H6 i Hp Hn) as [E1 E2].
  assert (D : dev (execute (slice_handle size i) m) =
              write (Out, i) (sum_slice hm i) (dev m)).
  { unfold execute. change (handle_slice (slice_handle size i)) with i. rewrite Ho.
    simpl. rewrite E1, E2, Hs. rewrite vadd_full; [reflexivity|assumption|assumption|].
    apply H5. exact Hn. }
  assert (H : host (execute (slice_handle size i) m) = host m) by apply host_execute.
  constructor; rewrite ?H, ?D.
  - exact H1.
  - exact H2.
  - exact H3.
  - intros b. rewrite length_mem_get_write. apply H4.
  - intros k Hk. destruct (decide (k = i)) as [->|Hne].
    + rewrite read_write_eq by (pose proof (H4 Out) as L; simpl in L |- *; lia).
      unfold sum_slice. rewrite length_zip_with. lia.
    + rewrite read_write_ne by congruence. apply H5. exact Hk.
  - intros k Hk Hkn. rewrite !read_write_ne by congruence. apply H6; assumption.
  - intros k Hk. destruct (decide (k = i)) as [->|Hne].
    + apply read_write_eq. pose proof (H4 Out) as L. simpl in L |- *. lia.
    + rewrite read_write_ne by congruence. apply H7. lia.
  - exact H8.
Qed.

Lemma progress_xfer_out hm n sz p c j m :
  progress hm n sz p c j m -> (j < c)%nat -> (j < n)%nat ->
  progress hm n sz p c (S j) (xfer_out j m).
Proof.
  intros [H1 H2 H3 H4 H5 H6 H7 H8] Hc Hn.
  assert (H : host (xfer_out j m) = write (Out, j) (read (Out, j) (dev m)) (host m))
    by reflexivity.
  constructor.
  - exact H1.
  - exact H2.
  - rewrite H. simpl. rewrite length_insert. exact H3.
  - exact H4.
  - exact H5.
  - exact H6.
  - exact H7.
  - intros k Hk. rewrite H. destruct (decide (k = j)) as [->|Hne].
    + rewrite read_write_eq by (simpl; lia).
      apply H7. exact Hc.
    + rewrite read_write_ne by congruence. apply H8. lia.
Qed.

Lemma progress_serial_effect hm n sz i m :
  size = Z.of_nat sz -> outcome i = Completed ->
  length (read (In1, i) hm) = sz -> length (read (In2, i) hm) = sz ->
  (i < n)%nat ->
  progress hm n sz i i i m -> progress hm n sz (S i) (S i) (S i) (serial_effect i m).
Proof.
  intros Hs Ho L1 L2 Hn P. unfold serial_effect.
  apply progress_xfer_out; [|lia|exact Hn].
  apply progress_execute; try assumption; [|lia].
  apply progress_add_log, progress_xfer_in; assumption.
Qed.

Lemma progress_step_effect hm n sz d i m :
  size = Z.of_nat sz -> outcome i = Completed ->
  length (read (In1, i) hm) = sz -> length (read (In2, i) hm) = sz ->
  (1 <= d)%nat -> (i < n)%nat ->
  progress hm n sz (i + d) i (i - d) m ->
  progress hm n sz (S i + d) (S i) (S i - d) (step_effect n d i m).
Proof.
  intros Hs Ho L1 L2 Hd Hn P. unfold step_effect.
  apply progress_add_log.
  assert (P1 : progress hm n sz (i + d) (S i) (i - d)
                 (execute (slice_handle size i) (add_log (Start (slice_handle size i)) m))).
  { apply progress_execute; try assumption; [|lia]. apply progress_add_log, P. }
  set (m1 := execute (slice_handle size i) (add_log (Start (slice_handle size i)) m)) in *.
  assert (P2 : progress hm n sz (S i + d) (S i) (i - d)
                 (if (i + d <? n)%nat then xfer_in (i + d) m1 else m1)).
  { destruct (i + d <? n)%nat eqn:E.
    - apply Nat.ltb_lt in E. apply (progress_xfer_in hm n sz (S i) (i - d) (i + d) m1 P1 E).
    - apply Nat.ltb_ge in E. apply (progress_weaken _ _ _ _ _ _ _ _ _ _ P1); lia. }
  set (m2 := if (i + d <? n)%nat then xfer_in (i + d) m1 else m1) in *.
  destruct (d <=? i)%nat eqn:E.
  - apply Nat.leb_le in E. replace (S i - d)%nat with (S (i - d)) by lia.
    apply progress_xfer_out; [exact P2|lia|lia].
  - apply Nat.leb_gt in E. apply (progress_weaken _ _ _ _ _ _ _ _ _ _ P2); lia.
Qed.

Lemma iterate_inv (I : nat -> machine -> Prop) f k :
  forall lo m,
  (forall i x, (lo <= i < lo + k)%nat -> I i x -> I (S i) (f i x)) ->
  I lo m -> I (lo + k)%nat (iterate f (seq lo k) m).
Proof.
  induction k as [|k IH]; intros lo m Hf HI; simpl.
  - rewrite Nat.add_0_r. exact HI.
  - replace (lo + S k)%nat with (S lo + k)%nat by lia.
    apply IH.
    + intros i x Hi. apply Hf. lia.
    + apply Hf; [lia|exact HI].
Qed.

Lemma progress_boot hm dm n sz :
  has_shape n sz hm -> has_shape n sz dm -> progress hm n sz 0 0 0 (boot hm dm).
Proof.
  intros Hh Hd. constructor; simpl; try reflexivity.
  - apply (Hh Out).
  - intros b. apply (Hd b).
  - intros j Hj. destruct (Hd Out) as [Hl Hf]. simpl in Hl, Hf. unfold read. simpl.
    destruct (lookup_lt_is_Some_2 (mem_out dm) j) as [s Hs]; [lia|].
    rewrite Hs. simpl. rewrite Forall_forall in Hf. apply Hf.
    apply list_elem_of_lookup. eauto.
  - intros j Hj. lia.
  - intros j Hj. lia.
  - intros j Hj. lia.
Qed.

Lemma shape_read n sz mu b j :
  has_shape n sz mu -> (j < n)%nat -> length (read (b, j) mu) = sz.
Proof.
  intros H Hj. destruct (H b) as [Hl Hf]. unfold read. simpl.
  destruct (lookup_lt_is_Some_2 (mem_get b mu) j) as [s Hs]; [lia|].
  rewrite Hs. simpl. rewrite Forall_forall in Hf. apply Hf.
  apply list_elem_of_lookup. eauto.
Qed.

(** Once every slice is back on the host, the output buffer is
    [in1 + in2]. *)
Lemma progress_done hm n sz p c m :
  has_shape n sz hm -> progress hm n sz p c n m ->
  mem_out (host m) = np_add (mem_in1 hm) (mem_in2 hm).
Proof.
  intros Hh [_ _ pg_hout0 _ _ _ _ pg_stored0]. apply list_eq. intros j. unfold np_add. rewrite lookup_zip_with.
  destruct (Hh In1) as [H1 _]. destruct (Hh In2) as [H2 _]. simpl in H1, H2.
  destruct (decide (j < n)%nat) as [Hj|Hj].
  - destruct (lookup_lt_is_Some_2 (mem_out (host m)) j) as [x Hx]; [lia|].
    destruct (lookup_lt_is_Some_2 (mem_in1 hm) j) as [a Ha]; [lia|].
    destruct (lookup_lt_is_Some_2 (mem_in2 hm) j) as [b Hb]; [lia|].
    specialize (pg_stored0 j Hj). unfold read, sum_slice, read in pg_stored0.
    simpl in pg_stored0. rewrite Hx, Ha, Hb in pg_stored0. simpl in pg_stored0.
    rewrite Hx, Ha, Hb. simpl. f_equal. exact pg_stored0.
  - rewrite (lookup_ge_None_2 (mem_out (host m))) by lia.
    rewrite (lookup_ge_None_2 (mem_in1 hm)) by lia. reflexivity.
Qed.

Lemma serial_progress hm dm n sz :
  size = Z.of_nat sz -> (forall i, (i < n)%nat -> outcome i = Completed) ->
  has_shape n sz hm -> has_shape n sz dm ->
  progress hm n sz n n n (iterate serial_effect (seq 0 n) (boot hm dm)).
Proof.
  intros Hs Ho Hh Hd.
  apply (iterate_inv (fun i => progress hm n sz i i i) serial_effect n 0).
  - intros i x Hi P. apply progress_serial_effect; try assumption; try lia.
    + apply Ho. lia.
    + apply (shape_read n); [exact Hh|lia].
    + apply (shape_read n); [exact Hh|lia].
  - apply progress_boot; assumption.
Qed.

Lemma overlapped_progress hm dm n d sz :
  size = Z.of_nat sz -> (forall i, (i < n)%nat -> outcome i = Completed) ->
  (1 <= d <= n)%nat -> has_shape n sz hm -> has_shape n sz dm ->
  progress hm n sz (n + d) n n (overlapped_effect n d (boot hm dm)).
Proof.
  intros Hs Ho Hdn Hh Hd. unfold overlapped_effect.
  assert (P1 : progress hm n sz d 0 0 (iterate xfer_in (seq 0 d) (boot hm dm))).
  { apply (iterate_inv (fun j => progress hm n sz j 0 0) xfer_in d 0).
    - intros i x Hi P. apply progress_xfer_in; [exact P|lia].
    - apply progress_boot; assumption. }
  assert (P2 : progress hm n sz (n + d) n (n - d)
                 (iterate (step_effect n d) (seq 0 n)
                    (iterate xfer_in (seq 0 d) (boot hm dm)))).
  { apply (iterate_inv (fun i => progress hm n sz (i + d) i (i - d)) (step_effect n d) n 0).
    - intros i x Hi P. apply progress_step_effect; try assumption; try lia.
      + apply Ho. lia.
      + apply (shape_read n); [exact Hh|lia].
      + apply (shape_read n); [exact Hh|lia].
    - exact P1. }
  replace n with (n - d + d)%nat at 4 by lia.
  apply (iterate_inv (fun j => progress hm n sz (n + d) n j) xfer_out d (n - d)).
  - intros i x Hi P. apply progress_xfer_out; [exact P|lia|lia].
  - exact P2.
Qed.

(** ** The reference check *)

Lemma list_eqb_eq {A} (eqb : A -> A -> bool) (l k : list A) :
  (forall a b, eqb a b = true <-> a = b) ->
  ((length l =? length k)%nat && forallb (fun p => eqb (fst p) (snd p)) (zip l k) = true
   <-> l = k).
Proof.
  intros Heq. revert k. induction l as [|a l IH]; intros [|b k]; simpl;
    try (split; [discriminate|discriminate]); [split; reflexivity|].
  specialize (IH k). rewrite andb_true_iff in *. rewrite andb_true_iff.
  rewrite Heq. split.
  - intros [Hl [-> Hf]]. f_equal. apply IH. split; assumption.
  - intros E. injection E as -> ->. destruct IH as [_ IH]. destruct (IH eq_refl) as [? ?].
    repeat split; assumption.
Qed.

Lemma slice_eqb_eq (s t : list Z) : slice_eqb s t = true <-> s = t.
Proof. apply (list_eqb_eq Z.eqb). apply Z.eqb_eq. Qed.

Lemma np_array_equal_eq (x y : list (list Z)) : np_array_equal x y = true <-> x = y.
Proof. apply (list_eqb_eq slice_eqb). apply slice_eqb_eq. Qed.

(** ** Which exceptions the loops can raise *)

Lemma tame_bind {A B} (c : M A) (k : A -> M B) :
  tame c -> (forall a, tame (k a)) -> tame (bind c k).
Proof.
  intros Hc Hk m e m'. unfold bind. destruct (c m) as [[a|e1] m1] eqn:E.
  - apply Hk.
  - intros [= <- <-]. apply (Hc m e1 m1 E).
Qed.

Lemma tame_ret {A} (a : A) : tame (ret a).
Proof. intros m e m'. discriminate. Qed.

Lemma tame_getitem b i : tame (getitem b i).
Proof.
  intros m e m'. unfold getitem. destruct (py_index _ i); [discriminate|].
  intros [= <- <-]. left. reflexivity.
Qed.

Lemma tame_sync_to_device v : tame (sync_to_device v).
Proof. intros m e m'. discriminate. Qed.

Lemma tame_sync_from_device v : tame (sync_from_device v).
Proof. intros m e m'. discriminate. Qed.

Lemma tame_start a b c count : tame (start a b c count).
Proof.
  intros m e m'. unfold start. destruct (pending m); [|discriminate].
  intros [= <- <-]. right. right. reflexivity.
Qed.

Lemma tame_wait h : tame (wait h).
Proof.
  intros m e m'. unfold wait. destruct (outcome (handle_slice h)); try discriminate.
  intros [= <- <-]. right. left. reflexivity.
Qed.

Lemma tame_when c body : tame body -> tame (when c body).
Proof. intros H. destruct c; [exact H|apply tame_ret]. Qed.

Lemma tame_for_each l body : (forall i, tame (body i)) -> tame (for_each l body).
Proof.
  intros H. induction l as [|i l IH]; simpl; [apply tame_ret|].
  apply tame_bind; [apply H|intros _; exact IH].
Qed.

Lemma tame_overlapped_loop n : tame (overlapped_loop n).
Proof.
  unfold overlapped_loop, overlapped_body.
  repeat first
    [ apply tame_bind | apply tame_for_each | apply tame_when | apply tame_ret
    | apply tame_getitem | apply tame_sync_to_device | apply tame_sync_from_device
    | apply tame_start | apply tame_wait | intro ].
Qed.

(** ** Both copies after a run *)

Lemma buffer_ext (x y : list (list Z)) n :
  length x = n -> length y = n ->
  (forall j, (j < n)%nat -> default [] (x !! j) = default [] (y !! j)) -> x = y.
Proof.
  intros Hx Hy H. apply list_eq. intros j. destruct (decide (j < n)%nat) as [Hj|Hj].
  - destruct (lookup_lt_is_Some_2 x j) as [a Ha]; [lia|].
    destruct (lookup_lt_is_Some_2 y j) as [b Hb]; [lia|].
    specialize (H j Hj). rewrite Ha, Hb in H. simpl in H. rewrite Ha, Hb, H. reflexivity.
  - rewrite !lookup_ge_None_2 by lia. reflexivity.
Qed.

Lemma progress_start n sz m :
  has_shape n sz (host m) -> has_shape n sz (dev m) -> progress (host m) n sz 0 0 0 m.
Proof.
  intros Hh Hd. constructor; try reflexivity.
  - apply (Hh Out).
  - intros b. apply (Hd b).
  - intros j Hj. apply (shape_read n); assumption.
  - intros j Hj. lia.
  - intros j Hj. lia.
  - intros j Hj. lia.
Qed.

Lemma np_add_read hm n j :
  has_slices n hm -> (j < n)%nat ->
  default [] (np_add (mem_in1 hm) (mem_in2 hm) !! j) = sum_slice hm j.
Proof.
  intros H Hj. unfold np_add, sum_slice, read. simpl. rewrite lookup_zip_with.
  pose proof (H In1) as H1. pose proof (H In2) as H2. simpl in H1, H2.
  destruct (lookup_lt_is_Some_2 (mem_in1 hm) j) as [a Ha]; [lia|].
  destruct (lookup_lt_is_Some_2 (mem_in2 hm) j) as [b Hb]; [lia|].
  rewrite Ha, Hb. reflexivity.
Qed.

Lemma progress_settled hm n sz p m :
  has_shape n sz hm -> (n <= p)%nat -> progress hm n sz p n n m ->
  host m = settled_memory (mem_in1 hm) (mem_in2 hm) /\
  dev m = settled_memory (mem_in1 hm) (mem_in2 hm).
Proof.
  intros Hh Hp P. pose proof (progress_done hm n sz p n m Hh P) as Eo.
  destruct P as [H1 H2 H3 H4 H5 H6 H7 H8].
  assert (Hs : has_slices n hm) by (intros b; apply (Hh b)).
  split.
  - destruct (host m) as [a b c]. simpl in *. subst. reflexivity.
  - assert (E1 : mem_in1 (dev m) = mem_in1 hm).
    { apply (buffer_ext _ _ n); [apply (H4 In1)|apply (Hs In1)|].
      intros j Hj. destruct (H6 j) as [E _]; [lia|exact Hj|]. exact E. }
    assert (E2 : mem_in2 (dev m) = mem_in2 hm).
    { apply (buffer_ext _ _ n); [apply (H4 In2)|apply (Hs In2)|].
      intros j Hj. destruct (H6 j) as [_ E]; [lia|exact Hj|]. exact E. }
    assert (E3 : mem_out (dev m) = np_add (mem_in1 hm) (mem_in2 hm)).
    { apply (buffer_ext _ _ n); [apply (H4 Out)| |].
      - unfold np_add. rewrite length_zip_with.
        pose proof (Hs In1) as L1. pose proof (Hs In2) as L2. simpl in L1, L2. lia.
      - intros j Hj. rewrite (np_add_read hm n j Hs Hj). apply (H7 j Hj). }
    destruct (dev m) as [a b c]. simpl in *. subst. reflexivity.
Qed.

Lemma has_shape_settled n sz hm :
  has_shape n sz hm -> has_shape n sz (settled_memory (mem_in1 hm) (mem_in2 hm)).
Proof.
  intros H b. destruct b; simpl; [apply (H In1)|apply (H In2)|].
  destruct (H In1) as [L1 F1]. destruct (H In2) as [L2 F2]. simpl in L1, L2, F1, F2.
  split.
  - unfold np_add. rewrite length_zip_with. lia.
  - apply Forall_lookup. intros i x Hx. unfold np_add in Hx.
    rewrite lookup_zip_with in Hx.
    destruct (mem_in1 hm !! i) as [a|] eqn:Ea; simpl in Hx; [|discriminate].
    destruct (mem_in2 hm !! i) as [c|] eqn:Ec; simpl in Hx; [|discriminate].
    injection Hx as <-. rewrite length_zip_with.
    rewrite Forall_lookup in F1. rewrite Forall_lookup in F2.
    rewrite (F1 i a Ea), (F2 i c Ec). lia.
Qed.

Lemma serial_loop_settles n sz :
  size = Z.of_nat sz -> (forall i, (i < n)%nat -> outcome i = Completed) ->
  settles n sz (serial_loop n).
Proof.
  intros Hs Ho m Pm Hh Hd.
  assert (R : ready n m).
  { split; [exact Pm|]. intros b. unfold hlen. destruct (Hh b) as [L _]. lia. }
  exists (iterate serial_effect (seq 0 n) m). split; [|split].
  - apply serial_loop_run; [exact R|]. intros i Hi. rewrite (Ho i Hi). discriminate.
  - apply (ready_iterate n); [intros i x; apply ready_serial_effect|exact R].
  - apply (progress_settled (host m) n sz n); [exact Hh|lia|].
    apply (iterate_inv (fun i => progress (host m) n sz i i i) serial_effect n 0).
    + intros i x Hi P. apply progress_serial_effect; try assumption; try lia.
      * apply Ho. lia.
      * apply (shape_read n); [exact Hh|lia].
      * apply (shape_read n); [exact Hh|lia].
    + apply progress_start; assumption.
Qed.

Lemma run_overlapped_settles n d sz :
  size = Z.of_nat sz -> (forall i, (i < n)%nat -> outcome i = Completed) ->
  (1 <= d <= n)%nat -> settles n sz (run_overlapped n d).
Proof.
  intros Hs Ho Hdn m Pm Hh Hd.
  assert (R : ready n m).
  { split; [exact Pm|]. intros b. unfold hlen. destruct (Hh b) as [L _]. lia. }
  exists (overlapped_effect n d m). split; [|split].
  - apply run_overlapped_run; [lia|exact R|]. intros i Hi. rewrite (Ho i Hi). discriminate.
  - unfold overlapped_effect.
    apply (ready_iterate n); [intros i x; apply ready_xfer_out|].
    apply (ready_iterate n); [intros i x; apply ready_step_effect|].
    apply (ready_iterate n); [intros i x; apply ready_xfer_in|exact R].
  - apply (progress_settled (host m) n sz (n + d)); [exact Hh|lia|].
    unfold overlapped_effect.
    assert (P1 : progress (host m) n sz d 0 0 (iterate xfer_in (seq 0 d) m)).
    { apply (iterate_inv (fun j => progress (host m) n sz j 0 0) xfer_in d 0).
      - intros i x Hi P. apply progress_xfer_in; [exact P|lia].
      - apply progress_start; assumption. }
    assert (P2 : progress (host m) n sz (n + d) n (n - d)
                   (iterate (step_effect n d) (seq 0 n) (iterate xfer_in (seq 0 d) m))).
    { apply (iterate_inv (fun i => progress (host m) n sz (i + d) i (i - d))
               (step_effect n d) n 0).
      - intros i x Hi P. apply progress_step_effect; try assumption; try lia.
        + apply Ho. lia.
        + apply (shape_read n); [exact Hh|lia].
        + apply (shape_read n); [exact Hh|lia].
      - exact P1. }
    replace n with (n - d + d)%nat at 4 by lia.
    apply (iterate_inv (fun j => progress (host m) n sz (n + d) n j) xfer_out d (n - d)).
    + intros i x Hi P. apply progress_xfer_out; [exact P|lia|lia].
    + exact P2.
Qed.

Lemma overlapped_loop_settles n sz :
  size = Z.of_nat sz -> (forall i, (i < n)%nat -> outcome i = Completed) ->
  (1 <= n)%nat -> settles n sz (overlapped_loop n).
Proof.
  intros Hs Ho Hn m Pm Hh Hd. rewrite overlapped_loop_refines by exact Hn.
  apply (run_overlapped_settles n 1 sz); try assumption. lia.
Qed.

Lemma settled_memory_again a b :
  settled_memory (mem_in1 (settled_memory a b)) (mem_in2 (settled_memory a b)) =
    settled_memory a b.
Proof. reflexivity. Qed.

Lemma settles_seq n sz c1 c2 :
  settles n sz c1 -> settles n sz c2 -> settles n sz (c1 >> c2).
Proof.
  intros H1 H2 m Pm Hh Hd.
  destruct (H1 m Pm Hh Hd) as (m1 & E1 & P1 & Eh1 & Ed1).
  destruct (H2 m1 P1) as (m2 & E2 & P2 & Eh2 & Ed2).
  - rewrite Eh1. apply has_shape_settled. exact Hh.
  - rewrite Ed1. apply has_shape_settled. exact Hh.
  - exists m2. unfold bind. rewrite E1, E2. split; [reflexivity|]. split; [exact P2|].
    rewrite Eh2, Ed2, Eh1. split; reflexivity.
Qed.

Lemma timeit_settles n sz k c :
  settles n sz c -> settles n sz (timeit (S k) c).
Proof.
  intros H. unfold timeit, range. generalize 0%nat.
  induction k as [|k IH]; intros lo.
  - simpl. intros m Pm Hh Hd. destruct (H m Pm Hh Hd) as (m1 & E1 & R1).
    exists m1. unfold bind, ret. rewrite E1. split; [reflexivity|exact R1].
  - change (seq lo (S (S k))) with (lo :: seq (S lo) (S k)).
    change (for_each (lo :: seq (S lo) (S k)) (fun _ => c))
      with (c >> for_each (seq (S lo) (S k)) (fun _ => c)).
    apply settles_seq; [exact H|apply IH].
Qed.

(** ** Host-side writes *)

Lemma length_drawn rnd (x : list (list Z)) : length (drawn rnd x) = length x.
Proof. unfold drawn. apply length_imap. Qed.

Lemma Forall_length_drawn rnd (x : list (list Z)) sz :
  Forall (fun s => length s = sz) x -> Forall (fun s => length s = sz) (drawn rnd x).
Proof.
  intros F. apply Forall_lookup. intros i s Hs. unfold drawn in Hs.
  rewrite list_lookup_imap in Hs.
  destruct (x !! i) as [t|] eqn:Et; simpl in Hs; [|discriminate].
  injection Hs as <-. rewrite length_imap.
  rewrite Forall_lookup in F. exact (F i t Et).
Qed.

Lemma has_shape_set n sz b x mu :
  has_shape n sz mu -> length x = n -> Forall (fun s => length s = sz) x ->
  has_shape n sz (mem_set b x mu).
Proof.
  intros H L F b'. destruct (decide (b' = b)) as [->|Hne].
  - rewrite mem_get_set_eq. split; assumption.
  - rewrite mem_get_set_ne by assumption. apply H.
Qed.

Lemma has_shape_drawn n sz b rnd mu :
  has_shape n sz mu -> has_shape n sz (mem_set b (drawn rnd (mem_get b mu)) mu).
Proof.
  intros H. destruct (H b) as [L F]. apply has_shape_set; [exact H| |].
  - rewrite length_drawn. exact L.
  - apply Forall_length_drawn. exact F.
Qed.

Lemma has_shape_filled n sz b v mu :
  has_shape n sz mu ->
  has_shape n sz (mem_set b (map (map (fun _ => v)) (mem_get b mu)) mu).
Proof.
  intros H. destruct (H b) as [L F]. apply has_shape_set; [exact H| |].
  - rewrite length_map. exact L.
  - apply Forall_lookup. intros i s Hs.
    change (map (map (fun _ : Z => v)) (mem_get b mu)) with
      ((map (fun _ : Z => v)) <$> (mem_get b mu)) in Hs.
    rewrite list_lookup_fmap in Hs.
    destruct (mem_get b mu !! i) as [t|] eqn:Et; simpl in Hs; [|discriminate].
    injection Hs as <-. rewrite length_map.
    rewrite Forall_lookup in F. exact (F i t Et).
Qed.

Lemma in_range_drawn rnd (x : list (list Z)) hi :
  (forall i j, 0 <= rnd i j < hi) -> in_range hi (drawn rnd x).
Proof.
  intros H. unfold in_range. apply Forall_lookup. intros i s Hs. unfold drawn in Hs.
  rewrite list_lookup_imap in Hs.
  destruct (x !! i) as [t|] eqn:Et; simpl in Hs; [|discriminate].
  injection Hs as <-. apply Forall_lookup. intros j v Hv.
  rewrite list_lookup_imap in Hv.
  destruct (t !! j) as [w|]; simpl in Hv; [|discriminate].
  injection Hv as <-. apply H.
Qed.

(** ** Slices the loops leave alone *)

Lemma lookup_write_ne b j v s mu :
  (b, j) <> v -> mem_get b (write v s mu) !! j = mem_get b mu !! j.
Proof.
  destruct v as [b' i]. unfold write. simpl. intros H.
  destruct (decide (b = b')) as [->|Hb].
  - rewrite mem_get_set_eq. apply list_lookup_insert_ne. congruence.
  - rewrite mem_get_set_ne by assumption. reflexivity.
Qed.

Lemma untouched_refl n m : untouched n m m.
Proof. intros b j Hj. split; reflexivity. Qed.

Lemma untouched_trans n m1 m2 m3 :
  untouched n m1 m2 -> untouched n m2 m3 -> untouched n m1 m3.
Proof.
  intros H1 H2 b j Hj. destruct (H1 b j Hj) as [A1 B1]. destruct (H2 b j Hj) as [A2 B2].
  split; congruence.
Qed.

Lemma untouched_to_device n v m : (snd v < n)%nat -> untouched n m (to_device v m).
Proof.
  intros Hv b j Hj. split; [reflexivity|].
  unfold to_device. cbn [dev set_dev]. apply lookup_write_ne.
  destruct v as [b' i]. simpl in Hv. intros [= -> ->]. lia.
Qed.

Lemma untouched_from_device n v m : (snd v < n)%nat -> untouched n m (from_device v m).
Proof.
  intros Hv b j Hj. split; [|reflexivity].
  unfold from_device. cbn [host set_host]. apply lookup_write_ne.
  destruct v as [b' i]. simpl in Hv. intros [= -> ->]. lia.
Qed.

Lemma untouched_add_log n e m : untouched n m (add_log e m).
Proof. intros b j Hj. split; reflexivity. Qed.

Lemma untouched_execute n i m : (i < n)%nat -> untouched n m (execute (slice_handle size i) m).
Proof.
  intros Hi b j Hj. unfold execute. destruct (outcome _); try (split; reflexivity).
  split; [reflexivity|]. cbn [dev set_dev]. apply lookup_write_ne.
  simpl. intros [= -> ->]. lia.
Qed.

Lemma untouched_xfer_in n j m : (j < n)%nat -> untouched n m (xfer_in j m).
Proof.
  intros Hj. unfold xfer_in.
  eapply untouched_trans; [apply (untouched_add_log n (SyncToDevice (In1, j)))|].
  eapply untouched_trans; [apply (untouched_to_device n (In1, j)); exact Hj|].
  eapply untouched_trans; [apply (untouched_add_log n (SyncToDevice (In2, j)))|].
  apply (untouched_to_device n (In2, j)). exact Hj.
Qed.

Lemma untouched_xfer_out n j m : (j < n)%nat -> untouched n m (xfer_out j m).
Proof.
  intros Hj. unfold xfer_out.
  eapply untouched_trans; [apply (untouched_add_log n (SyncFromDevice (Out, j)))|].
  apply (untouched_from_device n (Out, j)). exact Hj.
Qed.

Lemma untouched_serial_effect n i m : (i < n)%nat -> untouched n m (serial_effect i m).
Proof.
  intros Hi. unfold serial_effect.
  eapply untouched_trans; [apply (untouched_xfer_in n i); exact Hi|].
  eapply untouched_trans; [apply (untouched_add_log n (Call (slice_handle size i)))|].
  eapply untouched_trans; [apply (untouched_execute n i); exact Hi|].
  apply untouched_xfer_out. exact Hi.
Qed.

Lemma untouched_step_effect n d i m : (i < n)%nat -> untouched n m (step_effect n d i m).
Proof.
  intros Hi. unfold step_effect. cbv zeta.
  set (m1 := execute (slice_handle size i) (add_log (Start (slice_handle size i)) m)).
  set (m2 := if (i + d <? n)%nat then xfer_in (i + d) m1 else m1).
  set (m3 := if (d <=? i)%nat then xfer_out (i - d) m2 else m2).
  assert (U1 : untouched n m m1).
  { eapply untouched_trans; [apply (untouched_add_log n (Start (slice_handle size i)))|].
    apply untouched_execute. exact Hi. }
  assert (U2 : untouched n m1 m2).
  { unfold m2. destruct (i + d <? n)%nat eqn:E; [|apply untouched_refl].
    apply Nat.ltb_lt in E. apply untouched_xfer_in. exact E. }
  assert (U3 : untouched n m2 m3).
  { unfold m3. destruct (d <=? i)%nat; [|apply untouched_refl].
    apply untouched_xfer_out. lia. }
  eapply untouched_trans; [exact U1|]. eapply untouched_trans; [exact U2|].
  eapply untouched_trans; [exact U3|]. apply untouched_add_log.
Qed.

Lemma untouched_iterate n f l m :
  (forall i x, In i l -> untouched n x (f i x)) -> untouched n m (iterate f l m).
Proof.
  revert m. induction l as [|i l IH]; intros m H; simpl; [apply untouched_refl|].
  eapply untouched_trans; [apply H; left; reflexivity|].
  apply IH. intros j x Hj. apply H. right. exact Hj.
Qed.

Lemma untouched_overlapped_effect n d m :
  (d <= n)%nat -> untouched n m (overlapped_effect n d m).
Proof.
  intros Hd. unfold overlapped_effect.
  set (m1 := iterate xfer_in (seq 0 d) m).
  set (m2 := iterate (step_effect n d) (seq 0 n) m1).
  assert (U1 : untouched n m m1).
  { apply untouched_iterate. intros i x Hi. apply in_seq in Hi.
    apply untouched_xfer_in. lia. }
  assert (U2 : untouched n m1 m2).
  { apply untouched_iterate. intros i x Hi. apply in_seq in Hi.
    apply untouched_step_effect. lia. }
  eapply untouched_trans; [exact U1|]. eapply untouched_trans; [exact U2|].
  apply untouched_iterate. intros i x Hi. apply in_seq in Hi.
  apply untouched_xfer_out. lia.
Qed.

(** ** A loop bound beyond the buffers *)

Lemma py_index_beyond len i : (len <= i)%nat -> py_index len (Z.of_nat i) = None.
Proof.
  intros H. unfold py_index.
  replace (Z.of_nat i <? Z.of_nat len) with false by (symmetry; apply Z.ltb_ge; lia).
  replace (Z.of_nat i <? 0) with false by (symmetry; apply Z.ltb_ge; lia).
  rewrite !andb_false_r. reflexivity.
Qed.

Lemma getitem_beyond b i m :
  (hlen b m <= i)%nat -> getitem b (Z.of_nat i) m = (Exn IndexError, m).
Proof.
  intros H. unfold getitem. fold (hlen b m). rewrite py_index_beyond by assumption.
  reflexivity.
Qed.

Lemma log_run_due m : log (run_due m) = log m.
Proof.
  destruct m as [hm dm [[h [[|c]|]]|] lg];
    unfold run_due, execute; simpl;
    try destruct (outcome (handle_slice h)); reflexivity.
Qed.

Lemma host_run_due m : host (run_due m) = host m.
Proof.
  destruct m as [hm dm [[h [[|c]|]]|] lg];
    unfold run_due, execute; simpl;
    try destruct (outcome (handle_slice h)); reflexivity.
Qed.

(** One iteration of the pipeline on buffers of at least [k] slices,
    when the slices it uses are among them. *)
Lemma pipeline_step_run_within n k d i m :
  (0 < d)%nat -> (i < k)%nat -> ((i + d < n)%nat -> (i + d < k)%nat) -> ready k m ->
  pipeline_step n d i m =
    (match outcome i with Raises => Exn RuntimeError | _ => Ok tt end,
     step_effect n d i m).
Proof.
  intros Hd Hi Hp [P L]. unfold pipeline_step.
  unfold bind at 1. rewrite getitem_ok by (specialize (L In1); lia).
  unfold bind at 1. rewrite getitem_ok by (specialize (L In2); lia).
  unfold bind at 1. rewrite getitem_ok by (specialize (L Out); lia).
  destruct (start_run (In1, i) (In2, i) (Out, i) m P) as (m1 & E1 & F1 & S1).
  unfold bind at 1. rewrite E1. fold (slice_handle size i) in *.
  set (h := slice_handle size i) in *.
  set (c1 := execute h (add_log (Start h) m)) in *.
  assert (L1 : forall b, hlen b m1 = hlen b m).
  { intros b. rewrite (hlen_of_settle b m1 c1 S1). unfold c1. rewrite hlen_execute. reflexivity. }
  set (c2 := if (i + d <? n)%nat then xfer_in (i + d) c1 else c1).
  assert (B2 : exists m2, when (i + d <? n)%nat (prime_step (i + d)) m1 = (Ok tt, m2) /\
                          in_flight m2 = Some h /\ settle m2 = c2).
  { unfold c2, when. destruct (i + d <? n)%nat eqn:C.
    - apply Nat.ltb_lt in C. specialize (Hp C).
      destruct (prime_step_run (i + d) m1) as (m2 & E2 & F2 & S2).
      + intros q Hq. rewrite F1 in Hq. injection Hq as <-. apply disjoint_other_slice. lia.
      + intros q Hq. rewrite F1 in Hq. injection Hq as <-. apply disjoint_other_slice. lia.
      + rewrite L1. specialize (L In1). lia.
      + rewrite L1. specialize (L In2). lia.
      + exists m2. rewrite E2, F2, S2, S1, F1. auto.
    - exists m1. auto. }
  destruct B2 as (m2 & E2 & F2 & S2).
  assert (L2 : forall b, hlen b m2 = hlen b m).
  { intros b. rewrite (hlen_of_settle b m2 c2 S2). unfold c2.
    destruct (i + d <? n)%nat; rewrite ?hlen_xfer_in; unfold c1; rewrite hlen_execute; reflexivity. }
  set (c3 := if (d <=? i)%nat then xfer_out (i - d) c2 else c2).
  assert (B3 : exists m3, when (d <=? i)%nat (drain_step (i - d)) m2 = (Ok tt, m3) /\
                          in_flight m3 = Some h /\ settle m3 = c3).
  { unfold c3, when. destruct (d <=? i)%nat eqn:C.
    - apply Nat.leb_le in C.
      destruct (drain_step_run (i - d) m2) as (m3 & E3 & F3 & S3).
      + intros q Hq. rewrite F2 in Hq. injection Hq as <-. apply disjoint_other_slice. lia.
      + rewrite L2. specialize (L Out). lia.
      + exists m3. rewrite E3, F3, S3, S2, F2. auto.
    - exists m2. auto. }
  destruct B3 as (m3 & E3 & F3 & S3).
  unfold bind. rewrite E2, E3. rewrite (wait_run h m3 F3), S3.
  unfold step_effect. fold h. fold c1. fold c2. fold c3.
  change (handle_slice h) with i.
  destruct (outcome i); reflexivity.
Qed.

(** The iteration whose prefetch falls off the input buffer: the
    invocation is started, then the indexing raises. *)
Lemma pipeline_step_prefetch_fails n k m :
  (1 <= k < n)%nat -> ready k m -> hlen In1 m = k ->
  exists m1, pipeline_step n 1 (k - 1) m = (Exn IndexError, m1) /\
             in_flight m1 = Some (slice_handle size (k - 1)) /\
             log m1 = log m ++ [Start (slice_handle size (k - 1))] /\
             host m1 = host m.
Proof.
  intros Hk [P L] L1. unfold pipeline_step.
  unfold bind at 1. rewrite getitem_ok by (specialize (L In1); lia).
  unfold bind at 1. rewrite getitem_ok by (specialize (L In2); lia).
  unfold bind at 1. rewrite getitem_ok by (specialize (L Out); lia).
  unfold bind at 1. unfold start at 1. rewrite P.
  fold (slice_handle size (k - 1)).
  set (m1 := run_due _).
  assert (H1 : host m1 = host m) by (unfold m1; rewrite host_run_due; reflexivity).
  replace (k - 1 + 1 <? n)%nat with true by (symmetry; apply Nat.ltb_lt; lia).
  unfold bind at 1. unfold when, prime_step. unfold bind at 1. unfold bind at 1.
  rewrite getitem_beyond by (unfold hlen in *; rewrite H1; lia).
  exists m1. split; [reflexivity|]. split; [|split; [|exact H1]].
  - unfold m1. rewrite in_flight_run_due. reflexivity.
  - unfold m1. rewrite log_run_due. reflexivity.
Qed.

Lemma for_each_stops l1 i l2 body f (P : machine -> Prop) m e m' :
  (forall j x, In j l1 -> P x -> body j x = (Ok tt, f j x) /\ P (f j x)) ->
  P m -> body i (iterate f l1 m) = (Exn e, m') ->
  for_each (l1 ++ i :: l2) body m = (Exn e, m').
Proof.
  intros Hb Pm Hi. rewrite for_each_app. unfold bind at 1.
  destruct (for_each_run P body f l1 Hb m Pm) as [E _]. rewrite E.
  simpl. unfold bind. rewrite Hi. reflexivity.
Qed.

Lemma serial_loop_beyond n k m :
  (k < n)%nat -> ready k m -> hlen In1 m = k ->
  (forall i, (i < k)%nat -> outcome i <> Raises) ->
  serial_loop n m = (Exn IndexError, iterate serial_effect (seq 0 k) m).
Proof.
  intros Hk R L1 Ho. unfold serial_loop, range.
  assert (Eseq : seq 0 n = seq 0 k ++ k :: seq (S k) (n - S k)).
  { replace n with (k + S (n - S k))%nat at 1 by lia. rewrite seq_app. reflexivity. }
  rewrite Eseq.
  apply (for_each_stops _ _ _ serial_body serial_effect (ready k)).
  - intros j x Hj Rx. apply in_seq in Hj. split.
    + apply (serial_body_run k); [lia|exact Rx|apply Ho; lia].
    + apply ready_serial_effect. exact Rx.
  - exact R.
  - unfold serial_body. unfold bind at 1. rewrite getitem_beyond; [reflexivity|].
    assert (E : forall l x, hlen In1 (iterate serial_effect l x) = hlen In1 x).
    { induction l as [|a l IH]; intros x; simpl; [reflexivity|].
      rewrite IH. unfold serial_effect.
      rewrite hlen_xfer_out, hlen_execute. reflexivity. }
    rewrite E. lia.
Qed.

Lemma overlapped_loop_beyond n k m :
  (1 <= k < n)%nat -> ready k m -> hlen In1 m = k ->
  (forall i, (i < k - 1)%nat -> outcome i <> Raises) ->
  exists m1,
    overlapped_loop n m = (Exn IndexError, m1) /\
    in_flight m1 = Some (slice_handle size (k - 1)) /\
    log m1 = log m ++ in_events 0 ++ flat_map (step_events n 1) (seq 0 (k - 1))
             ++ [Start (slice_handle size (k - 1))].
Proof.
  intros Hk R L1 Ho. rewrite overlapped_loop_refines by lia.
  unfold run_overlapped.
  unfold bind at 1. unfold range at 1. simpl seq. simpl for_each.
  unfold bind at 1. rewrite (prime_step_idle k 0 m R) by lia. unfold ret at 1.
  set (m0 := xfer_in 0 m).
  assert (R0 : ready k m0) by (apply ready_xfer_in; exact R).
  assert (E : forall l x, (forall i, In i l -> True) ->
                hlen In1 (iterate (step_effect n 1) l x) = hlen In1 x).
  { induction l as [|a l IH]; intros x _; simpl; [reflexivity|].
    rewrite IH by auto. unfold step_effect. cbv zeta.
    destruct (1 <=? a)%nat; destruct (a + 1 <? n)%nat;
      rewrite ?hlen_xfer_out, ?hlen_xfer_in; unfold hlen; simpl;
      rewrite host_execute; reflexivity. }
  set (mk := iterate (step_effect n 1) (seq 0 (k - 1)) m0).
  assert (Rk : ready k mk).
  { apply (ready_iterate k); [intros i x; apply ready_step_effect|exact R0]. }
  destruct (pipeline_step_prefetch_fails n k mk Hk Rk) as (m1 & E1 & F1 & G1 & H1).
  { unfold mk. rewrite E by auto. exact L1. }
  exists m1. split; [|split; [exact F1|]].
  - unfold bind at 1. unfold range.
    assert (Eseq : seq 0 n = seq 0 (k - 1) ++ (k - 1)%nat :: seq k (n - k)).
    { replace n with (k - 1 + S (n - k))%nat at 1 by lia. rewrite seq_app. simpl.
      replace (S (k - 1)) with k by lia. reflexivity. }
    rewrite Eseq.
    rewrite (for_each_stops (seq 0 (k - 1)) (k - 1)%nat _ (pipeline_step n 1)
               (step_effect n 1) (ready k) m0 IndexError m1); [reflexivity| |exact R0|exact E1].
    intros j x Hj Rx. apply in_seq in Hj. split.
    + rewrite (pipeline_step_run_within n k 1 j x) by (try assumption; lia).
      assert (Hoj : outcome j <> Raises) by (apply Ho; lia).
      destruct (outcome j); try reflexivity. congruence.
    + apply ready_step_effect. exact Rx.
  - rewrite G1. unfold mk.
    rewrite (log_iterate (step_effect n 1) (step_events n 1))
      by (intros; apply log_step_effect).
    unfold m0. rewrite log_xfer_in. rewrite <- !app_assoc. reflexivity.
Qed.

(** ** The whole-buffer cells of examples 1 and 2 *)

Lemma cell7_run m :
  pending m = None -> outcome 0%nat <> Raises ->
  cell7 m = (Ok tt, execute (slice_handle size 0) (add_log (Call (slice_handle size 0)) m)).
Proof.
  intros P Ho. unfold cell7, whole. rewrite call_run by exact P. simpl snd.
  fold (slice_handle size 0). destruct (outcome 0%nat); try reflexivity. congruence.
Qed.

Lemma cell5_run m :
  pending m = None -> outcome 0%nat <> Raises ->
  cell5 m = (Ok tt, serial_effect 0 m).
Proof.
  intros P Ho. unfold cell5, whole.
  unfold bind at 1. unfold sync_to_device at 1. rewrite tick_idle by exact P.
  unfold bind at 1. unfold sync_to_device at 1. rewrite tick_idle by exact P.
  change (to_device (In2, 0%nat) (add_log (SyncToDevice (In2, 0%nat))
            (to_device (In1, 0%nat) (add_log (SyncToDevice (In1, 0%nat)) m))))
    with (xfer_in 0 m).
  unfold bind at 1. fold (whole In1). fold (whole In2). fold (whole Out). fold cell7.
  rewrite cell7_run by assumption.
  unfold sync_from_device. rewrite tick_idle; [reflexivity|].
  cbn [pending from_device set_host add_log]. rewrite pending_execute. exact P.
Qed.

Lemma cell5_settles sz :
  size = Z.of_nat sz -> outcome 0%nat = Completed -> settles 1 sz cell5.
Proof.
  intros Hs Ho m Pm Hh Hd.
  assert (Ho' : forall i, (i < 1)%nat -> outcome i = Completed).
  { intros i Hi. replace i with 0%nat by lia. exact Ho. }
  destruct (serial_loop_settles 1 sz Hs Ho' m Pm Hh Hd) as (m' & E & R).
  exists m'. split; [|exact R].
  rewrite cell5_run; [|exact Pm|rewrite Ho; discriminate].
  rewrite <- E. unfold serial_loop, range. simpl. unfold bind, ret.
  rewrite (serial_body_run 1 0 m); [reflexivity|lia| |rewrite Ho; discriminate].
  split; [exact Pm|]. intros b. unfold hlen. destruct (Hh b) as [L _]. lia.
Qed.

(** The call alone, made once both copies are settled, recomputes the
    output that is already there. *)
Lemma cell7_keeps_settled sz a b m :
  size = Z.of_nat sz -> outcome 0%nat = Completed -> pending m = None ->
  has_shape 1 sz (settled_memory a b) ->
  host m = settled_memory a b -> dev m = settled_memory a b ->
  exists m', cell7 m = (Ok tt, m') /\ host m' = host m /\ dev m' = dev m /\
             pending m' = None /\ log m' = log m ++ [Call (slice_handle size 0)].
Proof.
  intros Hs Ho Pm Hshape Hh Hd.
  rewrite cell7_run; [|exact Pm|rewrite Ho; discriminate].
  eexists. split; [reflexivity|].
  rewrite host_execute, pending_execute, log_execute. cbn [host pending log add_log].
  split; [reflexivity|]. split; [|split; [exact Pm|reflexivity]].
  unfold execute. change (handle_slice (slice_handle size 0)) with 0%nat. rewrite Ho.
  cbn [dev set_dev add_log arg_a arg_b arg_c arg_count slice_handle]. rewrite Hd, Hs.
  destruct (Hshape In1) as [L1 F1]. destruct (Hshape In2) as [L2 F2].
  destruct (Hshape Out) as [L3 F3]. simpl in L1, L2, L3, F1, F2, F3.
  destruct a as [|a0 [|? ?]]; try discriminate.
  destruct b as [|b0 [|? ?]]; try discriminate.
  apply Forall_cons in F1 as [La _]. apply Forall_cons in F2 as [Lb _].
  unfold settled_memory, np_add, write, read. simpl.
  rewrite vadd_full; [reflexivity|exact La|exact Lb|].
  rewrite length_zip_with. lia.
Qed.

End Runtime.

(** * The properties of the two loops *)

Lemma ready_boot n hm dm : has_slices n hm -> ready n (boot hm dm).
Proof. intros H. split; [reflexivity|]. intros b. unfold hlen. simpl. rewrite (H b). lia. Qed.

Lemma serial_loop_boot outcome size n hm dm :
  has_slices n hm -> (forall i, (i < n)%nat -> outcome i <> Raises) ->
  serial_loop outcome size n (boot hm dm) =
    (Ok tt, iterate (serial_effect outcome size) (seq 0 n) (boot hm dm)).
Proof. intros H Ho. apply serial_loop_run; [apply ready_boot; exact H|exact Ho]. Qed.

Lemma run_overlapped_boot sched outcome size n d hm dm :
  (1 <= d <= n)%nat -> has_slices n hm -> (forall i, (i < n)%nat -> outcome i <> Raises) ->
  run_overlapped sched outcome size n d (boot hm dm) =
    (Ok tt, overlapped_effect outcome size n d (boot hm dm)).
Proof. intros Hd H Ho. apply run_overlapped_run; [lia|apply ready_boot; exact H|exact Ho]. Qed.

(** The machine a run leaves behind does not depend on when the kernel
    bodies ran between their start and their wait. *)
Lemma schedule_independent sched sched' outcome size n d m :
  (1 <= d <= n)%nat -> ready n m -> (forall i, (i < n)%nat -> outcome i <> Raises) ->
  run_overlapped sched outcome size n d m = run_overlapped sched' outcome size n d m.
Proof.
  intros Hd R Ho.
  rewrite !run_overlapped_run by (try assumption; lia). reflexivity.
Qed.

Lemma overlapped_loop_boot sched outcome size n hm dm :
  (1 <= n)%nat -> has_slices n hm -> (forall i, (i < n)%nat -> outcome i <> Raises) ->
  overlapped_loop sched outcome size n (boot hm dm) =
    (Ok tt, overlapped_effect outcome size n 1 (boot hm dm)).
Proof.
  intros Hn H Ho. rewrite overlapped_loop_refines by exact Hn.
  apply run_overlapped_boot; [lia|exact H|exact Ho].
Qed.

Lemma filter_flat_map {A B} (p : B -> bool) (f : A -> list B) (l : list A) :
  List.filter p (flat_map f l) = flat_map (fun i => List.filter p (f i)) l.
Proof.
  induction l as [|a l IH]; simpl; [reflexivity|].
  rewrite List.filter_app, IH. reflexivity.
Qed.

Lemma filter_flat_map_none {A B} (p : B -> bool) (f : A -> list B) (l : list A) :
  (forall i, List.filter p (f i) = []) -> List.filter p (flat_map f l) = [].
Proof.
  intros H. induction l as [|a l IH]; simpl; [reflexivity|].
  rewrite List.filter_app, H, IH. reflexivity.
Qed.

(** C6: the serial loop (cell 27) runs exactly [n] iterations with [i]
    going up from [0], each one transferring in slice [i] of both inputs,
    calling the kernel on slice [i] synchronously and transferring out
    slice [i] of the output, in this order; it returns normally after the
    last one, with nothing left in flight. *)
Theorem serial_loop_order outcome size n hm dm :
  (1 <= n)%nat -> has_slices n hm ->
  (forall i, (i < n)%nat -> outcome i <> Raises) ->
  let r := serial_loop outcome size n (boot hm dm) in
  fst r = Ok tt /\
  pending (snd r) = None /\
  log (snd r) =
    flat_map (fun i => [SyncToDevice (In1, i); SyncToDevice (In2, i);
                        Call (slice_handle size i);
                        SyncFromDevice (Out, i)]) (seq 0 n).
Proof.
  intros Hn H Ho r. unfold r. rewrite serial_loop_boot by assumption. simpl fst. simpl snd.
  split; [reflexivity|]. split.
  - apply (ready_iterate n).
    + intros i x. apply ready_serial_effect.
    + apply ready_boot. exact H.
  - rewrite log_serial. reflexivity.
Qed.

Lemma serial_loop_order_witness :
  let r := serial_loop (fun _ => Completed) 2 3
             (boot (Memory [[1;2];[3;4];[5;6]] [[10;20];[30;40];[50;60]] [[0;0];[0;0];[0;0]])
                   (Memory [[0;0];[0;0];[0;0]] [[0;0];[0;0];[0;0]] [[7;7];[7;7];[7;7]])) in
  fst r = Ok tt /\
  pending (snd r) = None /\
  log (snd r) =
    flat_map (fun i => [SyncToDevice (In1, i); SyncToDevice (In2, i);
                        Call (slice_handle 2 i);
                        SyncFromDevice (Out, i)]) (seq 0 3).
Proof.
  apply (serial_loop_order (fun _ => Completed) 2 3).
  - lia.
  - intros b; destruct b; reflexivity.
  - intros i _; discriminate.
Defined.

Lemma log_overlapped_loop sched outcome size n hm dm :
  (1 <= n)%nat -> has_slices n hm -> (forall i, (i < n)%nat -> outcome i <> Raises) ->
  log (snd (overlapped_loop sched outcome size n (boot hm dm))) = overlapped_trace size n 1.
Proof.
  intros Hn H Ho. rewrite overlapped_loop_boot by assumption.
  simpl snd. rewrite log_overlapped_effect. reflexivity.
Qed.

Lemma log_run_overlapped sched outcome size n d hm dm :
  (1 <= d <= n)%nat -> has_slices n hm -> (forall i, (i < n)%nat -> outcome i <> Raises) ->
  log (snd (run_overlapped sched outcome size n d (boot hm dm))) = overlapped_trace size n d.
Proof.
  intros Hd H Ho. rewrite run_overlapped_boot by assumption.
  simpl snd. rewrite log_overlapped_effect. reflexivity.
Qed.

Lemma filter_invocation_step size n d i :
  List.filter is_invocation (step_events size n d i) =
    [Start (slice_handle size i); Wait (slice_handle size i)].
Proof.
  unfold step_events. destruct (i + d <? n)%nat; destruct (d <=? i)%nat; reflexivity.
Qed.

Lemma filter_invocation_overlapped size n d :
  List.filter is_invocation (overlapped_trace size n d) =
    flat_map (fun i => [Start (slice_handle size i); Wait (slice_handle size i)]) (seq 0 n).
Proof.
  unfold overlapped_trace. rewrite !List.filter_app.
  rewrite (filter_flat_map_none is_invocation in_events) by reflexivity.
  rewrite (filter_flat_map_none is_invocation out_events) by reflexivity.
  rewrite app_nil_r, filter_flat_map. simpl.
  apply flat_map_ext. intros i. apply filter_invocation_step.
Qed.

Lemma start_only_when_idle size n d pre h post :
  (1 <= d)%nat -> overlapped_trace size n d = pre ++ Start h :: post ->
  outstanding None pre = None.
Proof.
  intros Hd E. destruct (outstanding None pre) as [k|] eqn:O; [|reflexivity].
  exfalso.
  exact (single_owner_sound (overlap_ok d) None _ (single_owner_overlapped size n d Hd)
           pre (Start h) post k E O).
Qed.

Lemma step_events_last size n d i :
  exists pre, step_events size n d i = pre ++ [Wait (slice_handle size i)].
Proof.
  unfold step_events.
  exists ([Start (slice_handle size i)]
          ++ (if (i + d <? n)%nat then in_events (i + d) else [])
          ++ (if (d <=? i)%nat then out_events (i - d) else [])).
  rewrite <- !app_assoc. reflexivity.
Qed.

Lemma log_raised_prefix outcome size n k m :
  log (step_effect outcome size n 1 k
         (iterate (step_effect outcome size n 1) (seq 0 k) (iterate xfer_in (seq 0 1) m))) =
    log m ++ in_events 0 ++ flat_map (step_events size n 1) (seq 0 k)
          ++ step_events size n 1 k.
Proof.
  rewrite log_step_effect.
  rewrite (log_iterate (step_effect outcome size n 1) (step_events size n 1))
    by (intros; apply log_step_effect).
  simpl iterate. rewrite log_xfer_in. rewrite <- !app_assoc. reflexivity.
Qed.

Lemma first_raise (outcome : nat -> completion) n :
  (forall i, (i < n)%nat -> outcome i <> Raises) \/
  (exists k, (k < n)%nat /\ outcome k = Raises /\
             forall i, (i < k)%nat -> outcome i <> Raises).
Proof.
  induction n as [|n [IH|(k & Hk & Hr & Hb)]].
  - left. intros i Hi. lia.
  - destruct (outcome n) eqn:E.
    + left. intros i Hi. destruct (decide (i = n)) as [->|Hne]; [congruence|apply IH; lia].
    + left. intros i Hi. destruct (decide (i = n)) as [->|Hne]; [congruence|apply IH; lia].
    + right. exists n. split; [lia|]. split; [exact E|]. intros i Hi. apply IH. exact Hi.
  - right. exists k. split; [lia|]. split; assumption.
Qed.

Lemma log_overlapped_loop_raised sched outcome size n k hm dm :
  (k < n)%nat -> has_slices n hm ->
  outcome k = Raises -> (forall i, (i < k)%nat -> outcome i <> Raises) ->
  overlapped_loop sched outcome size n (boot hm dm) =
    (Exn RuntimeError,
     step_effect outcome size n 1 k
       (iterate (step_effect outcome size n 1) (seq 0 k)
          (iterate xfer_in (seq 0 1) (boot hm dm)))) /\
  log (snd (overlapped_loop sched outcome size n (boot hm dm))) =
    in_events 0 ++ flat_map (step_events size n 1) (seq 0 (S k)).
Proof.
  intros Hk H Hr Ho.
  rewrite overlapped_loop_refines by lia.
  rewrite (run_overlapped_raise sched outcome size n 1 k)
    by (try assumption; try lia; apply ready_boot; exact H).
  split; [reflexivity|]. cbn [snd]. rewrite log_raised_prefix.
  change (log (boot hm dm)) with (@nil event). rewrite app_nil_l.
  rewrite seq_S, flat_map_app. simpl flat_map. rewrite app_nil_r. reflexivity.
Qed.

Lemma start_only_when_idle_prefix size n d c pre h post :
  (1 <= d)%nat ->
  in_events 0 ++ flat_map (step_events size n d) (seq 0 c) = pre ++ Start h :: post ->
  outstanding None pre = None.
Proof.
  intros Hd E. destruct (outstanding None pre) as [k|] eqn:O; [|reflexivity].
  exfalso.
  assert (S : single_owner (overlap_ok d) None
                (in_events 0 ++ flat_map (step_events size n d) (seq 0 c)) = true).
  { rewrite single_owner_app. simpl.
    apply (single_owner_flat_map (overlap_ok d) (step_events size n d)).
    intros i. apply single_owner_step. exact Hd. }
  exact (single_owner_sound (overlap_ok d) None _ S pre (Start h) post k E O).
Qed.

(** C3: in the overlapped loop (cell 33, depth 1), whatever the
    invocations do, the invocation calls in the log are exactly start(0),
    wait(0), start(1), wait(1), ... up to some slice, all [n] slices when
    no wait raises, and no start is issued while an invocation is
    outstanding. *)
Theorem overlapped_loop_single_outstanding sched outcome size n hm dm :
  (1 <= n)%nat -> has_slices n hm ->
  let r := overlapped_loop sched outcome size n (boot hm dm) in
  (exists c, (c <= n)%nat /\
     List.filter is_invocation (log (snd r)) =
       flat_map (fun i => [Start (slice_handle size i); Wait (slice_handle size i)])
         (seq 0 c) /\
     ((forall i, (i < n)%nat -> outcome i <> Raises) -> c = n /\ fst r = Ok tt)) /\
  (forall pre h post, log (snd r) = pre ++ Start h :: post ->
     outstanding None pre = None).
Proof.
  intros Hn H r. unfold r.
  destruct (first_raise outcome n) as [Ho|(k & Hk & Hr & Hb)].
  - rewrite log_overlapped_loop by assumption.
    rewrite overlapped_loop_boot by assumption.
    split.
    + exists n. split; [lia|]. split; [apply filter_invocation_overlapped|].
      intros _. split; reflexivity.
    + intros pre h post E. apply (start_only_when_idle size n 1 pre h post); [lia|exact E].
  - destruct (log_overlapped_loop_raised sched outcome size n k hm dm Hk H Hr Hb) as [E L].
    rewrite L. split.
    + exists (S k). split; [lia|]. split.
      * rewrite List.filter_app, filter_flat_map.
        change (List.filter is_invocation (in_events 0)) with (@nil event).
        rewrite app_nil_l.
        apply flat_map_ext. intros i. apply filter_invocation_step.
      * intros Ho. exfalso. exact (Ho k Hk Hr).
    + intros pre h post E'.
      apply (start_only_when_idle_prefix size n 1 (S k) pre h post); [lia|exact E'].
Qed.

Lemma overlapped_loop_single_outstanding_witness :
  let r := overlapped_loop (fun _ => 1%nat) (fun _ => Completed) 2 3
             (boot example_host example_dev) in
  (exists c, (c <= 3)%nat /\
     List.filter is_invocation (log (snd r)) =
       flat_map (fun i => [Start (slice_handle 2 i); Wait (slice_handle 2 i)])
         (seq 0 c) /\
     ((forall i, (i < 3)%nat -> (fun _ : nat => Completed) i <> Raises) ->
      c = 3%nat /\ fst r = Ok tt)) /\
  (forall pre h post, log (snd r) = pre ++ Start h :: post ->
     outstanding None pre = None).
Proof.
  apply (overlapped_loop_single_outstanding (fun _ => 1%nat) (fun _ => Completed) 2 3).
  - lia.
  - intros b; destruct b; reflexivity.
Defined.


Lemma in_trace_out size n d j :
  (1 <= d <= n)%nat -> (j < n)%nat ->
  In (SyncFromDevice (Out, j)) (overlapped_trace size n d).
Proof.
  intros Hd Hj. unfold overlapped_trace. rewrite !in_app_iff.
  destruct (decide (j + d < n)%nat) as [Hlt|Hge].
  - right. left. apply in_flat_map. exists (j + d)%nat. split; [apply in_seq; lia|].
    unfold step_events. rewrite !in_app_iff. right. right. left.
    replace (d <=? j + d)%nat with true by (symmetry; apply Nat.leb_le; lia).
    replace (j + d - d)%nat with j by lia. left. reflexivity.
  - right. right. apply in_flat_map. exists j. split; [apply in_seq; lia|].
    left. reflexivity.
Qed.


Lemma overlapped_trace_primed size n d :
  (1 <= n)%nat ->
  exists rest, overlapped_trace size n d =
               flat_map in_events (seq 0 d) ++ Start (slice_handle size 0) :: rest.
Proof.
  intros Hn. unfold overlapped_trace. destruct n as [|n]; [lia|].
  simpl seq. simpl flat_map. unfold step_events at 1. simpl app.
  eexists. reflexivity.
Qed.




Lemma result_before_transfer_out size n d pre v post :
  (1 <= d <= n)%nat -> overlapped_trace size n d = pre ++ SyncFromDevice v :: post ->
  In (Wait (slice_handle size (snd v))) pre.
Proof.
  intros Hd E.
  destruct (respects_sound (needs_result size) [] _ (respects_result_overlapped size n d Hd)
              pre (SyncFromDevice v) post (Wait (slice_handle size (snd v))) E)
    as [Hin|[]]; [left; reflexivity|exact Hin].
Qed.

Lemma overlapped_trace_tail size n :
  (1 <= n)%nat ->
  exists pre, overlapped_trace size n 1 =
              pre ++ [Wait (slice_handle size (n - 1)); SyncFromDevice (Out, (n - 1)%nat)].
Proof.
  intros Hn. destruct n as [|k]; [lia|].
  replace (S k - 1)%nat with k by lia.
  assert (EL : flat_map (step_events size (S k) 1) (seq 0 (S k)) =
               flat_map (step_events size (S k) 1) (seq 0 k) ++ step_events size (S k) 1 k).
  { rewrite seq_S, flat_map_app. simpl. rewrite app_nil_r. reflexivity. }
  assert (ED : flat_map out_events (seq (S k - 1) 1) = [SyncFromDevice (Out, k)]).
  { replace (S k - 1)%nat with k by lia. reflexivity. }
  unfold overlapped_trace. rewrite EL, ED. unfold step_events at 2.
  exists (flat_map in_events (seq 0 1) ++ flat_map (step_events size (S k) 1) (seq 0 k)
          ++ [Start (slice_handle size k)]
          ++ (if (k + 1 <? S k)%nat then in_events (k + 1) else [])
          ++ (if (1 <=? k)%nat then out_events (k - 1) else [])).
  repeat rewrite <- app_assoc. reflexivity.
Qed.

(** C5: in the overlapped loop (cell 33) every transfer out of an
    output slice is issued after the wait on that slice's invocation
    handle has returned; every output slice is transferred out, and the
    last call of the loop, the transfer out of the last slice, comes
    right after the last wait. *)
Theorem output_transferred_after_wait sched outcome size n hm dm :
  (1 <= n)%nat -> has_slices n hm ->
  (forall i, (i < n)%nat -> outcome i <> Raises) ->
  let tl := log (snd (overlapped_loop sched outcome size n (boot hm dm))) in
  (forall pre v post, tl = pre ++ SyncFromDevice v :: post ->
     In (Wait (slice_handle size (snd v))) pre) /\
  (forall j, (j < n)%nat -> In (SyncFromDevice (Out, j)) tl) /\
  (exists pre, tl = pre ++ [Wait (slice_handle size (n - 1));
                            SyncFromDevice (Out, (n - 1)%nat)]).
Proof.
  intros Hn H Ho tl. unfold tl.
  rewrite log_overlapped_loop by assumption.
  split; [|split].
  - intros pre v post E. apply (result_before_transfer_out size n 1 pre v post); [lia|exact E].
  - intros j Hj. apply in_trace_out; [lia|exact Hj].
  - apply overlapped_trace_tail. exact Hn.
Qed.

Lemma output_transferred_after_wait_witness :
  let tl := log (snd (overlapped_loop (fun _ => 1%nat) (fun _ => Completed) 2 3
                        (boot example_host example_dev))) in
  (forall pre v post, tl = pre ++ SyncFromDevice v :: post ->
     In (Wait (slice_handle 2 (snd v))) pre) /\
  (forall j, (j < 3)%nat -> In (SyncFromDevice (Out, j)) tl) /\
  (exists pre, tl = pre ++ [Wait (slice_handle 2 (3 - 1));
                            SyncFromDevice (Out, (3 - 1)%nat)]).
Proof.
  apply (output_transferred_after_wait (fun _ => 1%nat) (fun _ => Completed) 2 3).
  - lia.
  - intros b; destruct b; reflexivity.
  - intros i _; discriminate.
Defined.





Lemma no_transfer_in_after_priming size n :
  forall e, In e (flat_map (step_events size n n) (seq 0 n)
                  ++ flat_map out_events (seq (n - n) n)) ->
            is_transfer_in e = false.
Proof.
  intros e. rewrite in_app_iff, !in_flat_map.
  intros [(i & Hi & He)|(j & Hj & He)].
  - apply in_seq in Hi. unfold step_events in He.
    replace (i + n <? n)%nat with false in He by (symmetry; apply Nat.ltb_ge; lia).
    destruct (n <=? i)%nat; simpl in He; intuition (subst; reflexivity).
  - simpl in He. intuition (subst; reflexivity).
Qed.

(** C9: with a single slice the overlapped loop logs one transfer in of
    slice 0 of both inputs, one start and wait with nothing in between,
    and one transfer out; with the depth equal to the slice count, the
    transfers in of all input slices come first and none is issued from
    the first start on. *)
Theorem overlapped_boundaries sched outcome size n hm dm hm1 dm1 :
  (1 <= n)%nat -> has_slices n hm -> has_slices 1 hm1 ->
  (forall i, (i < n)%nat -> outcome i <> Raises) ->
  log (snd (overlapped_loop sched outcome size 1 (boot hm1 dm1))) =
    [SyncToDevice (In1, 0%nat); SyncToDevice (In2, 0%nat);
     Start (slice_handle size 0); Wait (slice_handle size 0);
     SyncFromDevice (Out, 0%nat)] /\
  (exists rest,
     log (snd (run_overlapped sched outcome size n n (boot hm dm))) =
       flat_map (fun i => [SyncToDevice (In1, i); SyncToDevice (In2, i)]) (seq 0 n)
       ++ Start (slice_handle size 0) :: rest /\
     forall e, In e rest -> is_transfer_in e = false).
Proof.
  intros Hn H H1 Ho. split.
  - rewrite log_overlapped_loop; [reflexivity|lia|exact H1|].
    intros i Hi. apply Ho. lia.
  - rewrite log_run_overlapped by (try assumption; lia).
    destruct (overlapped_trace_primed size n n Hn) as [rest E].
    exists rest. split; [exact E|].
    intros e He. apply (no_transfer_in_after_priming size n).
    unfold overlapped_trace in E. apply app_inv_head in E.
    rewrite E. right. exact He.
Qed.

Lemma overlapped_boundaries_witness :
  log (snd (overlapped_loop (fun _ => 1%nat) (fun _ => Completed) 2 1
              (boot (Memory [[1; 2]] [[3; 4]] [[0; 0]]) (Memory [[0; 0]] [[0; 0]] [[0; 0]])))) =
    [SyncToDevice (In1, 0%nat); SyncToDevice (In2, 0%nat);
     Start (slice_handle 2 0); Wait (slice_handle 2 0);
     SyncFromDevice (Out, 0%nat)] /\
  (exists rest,
     log (snd (run_overlapped (fun _ => 1%nat) (fun _ => Completed) 2 3 3
                 (boot example_host example_dev))) =
       flat_map (fun i => [SyncToDevice (In1, i); SyncToDevice (In2, i)]) (seq 0 3)
       ++ Start (slice_handle 2 0) :: rest /\
     forall e, In e rest -> is_transfer_in e = false).
Proof.
  apply (overlapped_boundaries (fun _ => 1%nat) (fun _ => Completed) 2 3).
  - lia.
  - intros b; destruct b; reflexivity.
  - intros b; destruct b; reflexivity.
  - intros i _; discriminate.
Defined.

Lemma has_shape_slices n sz mu : has_shape n sz mu -> has_slices n mu.
Proof. intros H b. apply (H b). Qed.

Lemma np_add_lookup (x y : list (list Z)) i j a b u v :
  x !! i = Some a -> y !! i = Some b -> a !! j = Some u -> b !! j = Some v ->
  exists o, np_add x y !! i = Some o /\ o !! j = Some (add_u32 u v).
Proof.
  intros Ha Hb Hu Hv. exists (zip_with add_u32 a b). unfold np_add.
  rewrite !lookup_zip_with, Ha, Hb, Hu, Hv. split; reflexivity.
Qed.

Lemma serial_loop_computes outcome n sz hm dm :
  has_shape n sz hm -> has_shape n sz dm ->
  (forall i, (i < n)%nat -> outcome i = Completed) ->
  let r := serial_loop outcome (Z.of_nat sz) n (boot hm dm) in
  fst r = Ok tt /\
  mem_out (host (snd r)) = np_add (mem_in1 hm) (mem_in2 hm) /\
  mem_in1 (host (snd r)) = mem_in1 hm /\ mem_in2 (host (snd r)) = mem_in2 hm.
Proof.
  intros Hh Hdm Ho r. unfold r.
  rewrite serial_loop_boot.
  - pose proof (serial_progress outcome (Z.of_nat sz) hm dm n sz eq_refl Ho Hh Hdm) as P.
    cbn [fst snd]. split; [reflexivity|]. split; [|split].
    + exact (progress_done hm n sz _ _ _ Hh P).
    + exact (pg_in1 _ _ _ _ _ _ _ P).
    + exact (pg_in2 _ _ _ _ _ _ _ P).
  - apply (has_shape_slices n sz). exact Hh.
  - intros i Hi. rewrite (Ho i Hi). discriminate.
Qed.

Lemma run_overlapped_computes sched outcome n d sz hm dm :
  (1 <= d <= n)%nat -> has_shape n sz hm -> has_shape n sz dm ->
  (forall i, (i < n)%nat -> outcome i = Completed) ->
  let r := run_overlapped sched outcome (Z.of_nat sz) n d (boot hm dm) in
  fst r = Ok tt /\
  mem_out (host (snd r)) = np_add (mem_in1 hm) (mem_in2 hm) /\
  mem_in1 (host (snd r)) = mem_in1 hm /\ mem_in2 (host (snd r)) = mem_in2 hm.
Proof.
  intros Hd Hh Hdm Ho r. unfold r.
  rewrite run_overlapped_boot.
  - pose proof (overlapped_progress outcome (Z.of_nat sz) hm dm n d sz eq_refl Ho Hd Hh Hdm)
      as P.
    cbn [fst snd]. split; [reflexivity|]. split; [|split].
    + exact (progress_done hm n sz _ _ _ Hh P).
    + exact (pg_in1 _ _ _ _ _ _ _ P).
    + exact (pg_in2 _ _ _ _ _ _ _ P).
  - exact Hd.
  - apply (has_shape_slices n sz). exact Hh.
  - intros i Hi. rewrite (Ho i Hi). discriminate.
Qed.

Lemma overlapped_loop_computes sched outcome n sz hm dm :
  (1 <= n)%nat -> has_shape n sz hm -> has_shape n sz dm ->
  (forall i, (i < n)%nat -> outcome i = Completed) ->
  let r := overlapped_loop sched outcome (Z.of_nat sz) n (boot hm dm) in
  fst r = Ok tt /\
  mem_out (host (snd r)) = np_add (mem_in1 hm) (mem_in2 hm) /\
  mem_in1 (host (snd r)) = mem_in1 hm /\ mem_in2 (host (snd r)) = mem_in2 hm.
Proof.
  intros Hn Hh Hdm Ho r. unfold r. rewrite overlapped_loop_refines by exact Hn.
  apply run_overlapped_computes; try assumption. lia.
Qed.

(** The two cells as they stand in the notebook, on buffers of ten
    slices: both leave [in1_iter + in2_iter] in [out_iter]. *)
Lemma notebook_cells_agree sched outcome sz hm dm dm' :
  has_shape 10 sz hm -> has_shape 10 sz dm -> has_shape 10 sz dm' ->
  (forall i, (i < 10)%nat -> outcome i = Completed) ->
  mem_out (host (snd (cell27 outcome (Z.of_nat sz) (boot hm dm)))) =
    np_add (mem_in1 hm) (mem_in2 hm) /\
  mem_out (host (snd (cell33 sched outcome (Z.of_nat sz) (boot hm dm')))) =
    np_add (mem_in1 hm) (mem_in2 hm).
Proof.
  intros Hh Hdm Hdm' Ho. split.
  - apply (serial_loop_computes outcome 10 sz hm dm); assumption.
  - rewrite cell33_is_overlapped_loop.
    apply (overlapped_loop_computes sched outcome 10 sz hm dm'); try assumption. lia.
Qed.

(** C1: on buffers of [n] slices of [sz] elements, with every invocation
    completing, the serial loop (cell 27), the overlapped loop (cell 33)
    and the schedule of any valid depth all return normally with the same
    output buffer, whatever the device held before and whenever the
    kernel body ran between start and wait; that buffer is [in1 + in2],
    element by element, and the notebook's [np.array_equal] check
    succeeds. *)
Theorem serial_overlapped_equivalent sched sched' outcome n d sz hm dm dm' :
  (1 <= d <= n)%nat ->
  has_shape n sz hm -> has_shape n sz dm -> has_shape n sz dm' ->
  (forall i, (i < n)%nat -> outcome i = Completed) ->
  let rs := serial_loop outcome (Z.of_nat sz) n (boot hm dm) in
  let rl := overlapped_loop sched outcome (Z.of_nat sz) n (boot hm dm') in
  let rg := run_overlapped sched' outcome (Z.of_nat sz) n d (boot hm dm') in
  fst rs = Ok tt /\ fst rl = Ok tt /\ fst rg = Ok tt /\
  mem_out (host (snd rs)) = np_add (mem_in1 hm) (mem_in2 hm) /\
  mem_out (host (snd rl)) = mem_out (host (snd rs)) /\
  mem_out (host (snd rg)) = mem_out (host (snd rs)) /\
  (forall i j a b u v,
     mem_in1 hm !! i = Some a -> mem_in2 hm !! i = Some b ->
     a !! j = Some u -> b !! j = Some v ->
     exists o, mem_out (host (snd rl)) !! i = Some o /\ o !! j = Some (add_u32 u v)) /\
  np_array_equal (mem_out (host (snd rl)))
    (np_add (mem_in1 (host (snd rl))) (mem_in2 (host (snd rl)))) = true.
Proof.
  intros Hd Hh Hdm Hdm' Ho rs rl rg.
  destruct (serial_loop_computes outcome n sz hm dm Hh Hdm Ho) as (Rs & Es & _ & _).
  destruct (overlapped_loop_computes sched outcome n sz hm dm' ltac:(lia) Hh Hdm' Ho)
    as (Rl & El & I1 & I2).
  destruct (run_overlapped_computes sched' outcome n d sz hm dm' Hd Hh Hdm' Ho)
    as (Rg & Eg & _ & _).
  fold rs in Rs, Es. fold rl in Rl, El, I1, I2. fold rg in Rg, Eg.
  split; [exact Rs|]. split; [exact Rl|]. split; [exact Rg|]. split; [exact Es|].
  split; [rewrite El, Es; reflexivity|]. split; [rewrite Eg, Es; reflexivity|]. split.
  - intros i j a b u v Ha Hb Hu Hv. rewrite El.
    apply (np_add_lookup _ _ i j a b u v); assumption.
  - apply np_array_equal_eq. rewrite El, I1, I2. reflexivity.
Qed.

Lemma serial_overlapped_equivalent_witness :
  let rs := serial_loop (fun _ => Completed) (Z.of_nat 2) 3 (boot example_host example_dev) in
  let rl := overlapped_loop (fun _ => 1%nat) (fun _ => Completed) (Z.of_nat 2) 3
              (boot example_host example_dev) in
  let rg := run_overlapped (fun _ => 2%nat) (fun _ => Completed) (Z.of_nat 2) 3 2
              (boot example_host example_dev) in
  fst rs = Ok tt /\ fst rl = Ok tt /\ fst rg = Ok tt /\
  mem_out (host (snd rs)) = np_add (mem_in1 example_host) (mem_in2 example_host) /\
  mem_out (host (snd rl)) = mem_out (host (snd rs)) /\
  mem_out (host (snd rg)) = mem_out (host (snd rs)) /\
  (forall i j a b u v,
     mem_in1 example_host !! i = Some a -> mem_in2 example_host !! i = Some b ->
     a !! j = Some u -> b !! j = Some v ->
     exists o, mem_out (host (snd rl)) !! i = Some o /\ o !! j = Some (add_u32 u v)) /\
  np_array_equal (mem_out (host (snd rl)))
    (np_add (mem_in1 (host (snd rl))) (mem_in2 (host (snd rl)))) = true.
Proof.
  apply (serial_overlapped_equivalent (fun _ => 1%nat) (fun _ => 2%nat) (fun _ => Completed)
           3 2 2 example_host example_dev example_dev).
  - lia.
  - intros b; destruct b; (split; [reflexivity|repeat constructor]).
  - intros b; destruct b; (split; [reflexivity|repeat constructor]).
  - intros b; destruct b; (split; [reflexivity|repeat constructor]).
  - intros i _; reflexivity.
Defined.

Lemma add_u32_exact x y :
  0 <= x < 1000 -> 0 <= y < 1000 -> add_u32 x y = x + y.
Proof.
  intros Hx Hy. unfold add_u32. change (2 ^ 32) with 4294967296.
  apply Z.mod_small. lia.
Qed.

Lemma zip_add_exact (s t : list Z) :
  Forall (fun v => 0 <= v < 1000) s -> Forall (fun v => 0 <= v < 1000) t ->
  zip_with add_u32 s t = zip_with Z.add s t /\
  Forall (fun v => 0 <= v <= 1998) (zip_with add_u32 s t).
Proof.
  intros Hs. revert t. induction Hs as [|x s Hx Hs IH]; intros t Ht.
  - split; [reflexivity|constructor].
  - destruct Ht as [|y t Hy Ht]; [split; [reflexivity|constructor]|].
    destruct (IH t Ht) as [E F]. simpl. rewrite E, add_u32_exact by assumption.
    split; [reflexivity|]. constructor; [lia|]. rewrite <- E. exact F.
Qed.

Lemma np_add_exact (a b : list (list Z)) :
  in_range 1000 a -> in_range 1000 b ->
  np_add a b = exact_add a b /\
  Forall (Forall (fun v => 0 <= v <= 1998)) (np_add a b).
Proof.
  unfold in_range, np_add, exact_add. intros Ha. revert b.
  induction Ha as [|s a Hs Ha IH]; intros b Hb.
  - split; [reflexivity|constructor].
  - destruct Hb as [|t b Ht Hb]; [split; [reflexivity|constructor]|].
    destruct (IH b Hb) as [E F]. destruct (zip_add_exact s t Hs Ht) as [E1 F1].
    simpl. rewrite E, E1. split; [reflexivity|].
    constructor; [rewrite <- E1; exact F1|rewrite <- E; exact F].
Qed.

Lemma buffer_shape_np_add n sz (a b : list (list Z)) :
  buffer_shape n sz a -> buffer_shape n sz b -> buffer_shape n sz (np_add a b).
Proof.
  unfold buffer_shape, np_add. intros [La Fa] [Lb Fb]. split.
  - rewrite length_zip_with. lia.
  - clear La Lb. revert b Fb. induction Fa as [|s a Hs Fa IH]; intros b Fb.
    + constructor.
    + destruct Fb as [|t b Ht Fb]; [constructor|].
      simpl. constructor; [rewrite length_zip_with; lia|apply IH; exact Fb].
Qed.

Lemma buffer_shape_lookup n sz (a : list (list Z)) i s :
  buffer_shape n sz a -> a !! i = Some s -> length s = sz.
Proof.
  intros [_ F] H. rewrite Forall_forall in F. apply F.
  apply list_elem_of_lookup. eauto.
Qed.

(** C10: for the notebook's inputs, two buffers of the same shape with
    every element drawn from [[0, 1000)], every sum is at most 1998,
    below [2^32], so the ['u4'] addition of the kernel and of
    [in1 + in2] is the exact integer addition, element by element, over
    the whole shape, and [np.array_equal(out, in1 + in2)] holds exactly
    when [out] holds the exact sums. *)
Theorem randint_sums_do_not_wrap (n sz : nat) (a b : list (list Z)) :
  buffer_shape n sz a -> buffer_shape n sz b ->
  in_range 1000 a -> in_range 1000 b ->
  buffer_shape n sz (np_add a b) /\
  np_add a b = exact_add a b /\
  Forall (Forall (fun v => 0 <= v <= 1998)) (np_add a b) /\
  1998 < 2 ^ 32 /\
  (forall out, np_array_equal out (np_add a b) = true <-> out = exact_add a b) /\
  (forall i s t c,
     a !! i = Some s -> b !! i = Some t -> length c = sz ->
     vadd s t c (Z.of_nat sz) = zip_with Z.add s t).
Proof.
  intros Sa Sb Ha Hb. destruct (np_add_exact a b Ha Hb) as [E F].
  split; [apply buffer_shape_np_add; assumption|].
  split; [exact E|]. split; [exact F|]. split; [reflexivity|]. split.
  - intros out. rewrite np_array_equal_eq, E. reflexivity.
  - intros i s t c Hs Ht Lc.
    rewrite vadd_full;
      [|exact (buffer_shape_lookup n sz a i s Sa Hs)
       |exact (buffer_shape_lookup n sz b i t Sb Ht)|exact Lc].
    apply zip_add_exact.
    + unfold in_range in Ha. rewrite Forall_forall in Ha. apply Ha.
      apply list_elem_of_lookup. eauto.
    + unfold in_range in Hb. rewrite Forall_forall in Hb. apply Hb.
      apply list_elem_of_lookup. eauto.
Qed.

Lemma randint_sums_do_not_wrap_witness :
  buffer_shape 2 2 (np_add [[999; 0]; [5; 6]] [[999; 1]; [7; 8]]) /\
  np_add [[999; 0]; [5; 6]] [[999; 1]; [7; 8]] = exact_add [[999; 0]; [5; 6]] [[999; 1]; [7; 8]] /\
  Forall (Forall (fun v => 0 <= v <= 1998)) (np_add [[999; 0]; [5; 6]] [[999; 1]; [7; 8]]) /\
  1998 < 2 ^ 32 /\
  (forall out, np_array_equal out (np_add [[999; 0]; [5; 6]] [[999; 1]; [7; 8]]) = true
               <-> out = exact_add [[999; 0]; [5; 6]] [[999; 1]; [7; 8]]) /\
  (forall i s t c,
     [[999; 0]; [5; 6]] !! i = Some s -> [[999; 1]; [7; 8]] !! i = Some t ->
     length c = 2%nat ->
     vadd s t c (Z.of_nat 2) = zip_with Z.add s t).
Proof.
  apply (randint_sums_do_not_wrap 2 2 [[999; 0]; [5; 6]] [[999; 1]; [7; 8]]).
  - split; [reflexivity|repeat constructor].
  - split; [reflexivity|repeat constructor].
  - repeat constructor; lia.
  - repeat constructor; lia.
Defined.

Lemma start_in_step size n d i h :
  In (Start h) (step_events size n d i) -> h = slice_handle size i.
Proof.
  unfold step_events, in_events, out_events.
  destruct (i + d <? n)%nat; destruct (d <=? i)%nat; simpl;
    intuition congruence.
Qed.

(** C7, as the loop is written: when the wait on slice [k]'s handle
    raises, the overlapped loop ends with the runtime's own exception,
    which carries neither a slice index nor a phase; that wait is the
    last call it makes, no invocation of a later slice has been started,
    and no invocation is left outstanding. *)
Theorem raising_wait_stops_the_loop sched outcome size n k hm dm :
  (k < n)%nat -> has_slices n hm ->
  outcome k = Raises -> (forall i, (i < k)%nat -> outcome i <> Raises) ->
  let r := overlapped_loop sched outcome size n (boot hm dm) in
  fst r = Exn RuntimeError /\
  (exists pre, log (snd r) = pre ++ [Wait (slice_handle size k)]) /\
  (forall h, In (Start h) (log (snd r)) -> (handle_slice h <= k)%nat) /\
  List.filter is_invocation (log (snd r)) =
    flat_map (fun i => [Start (slice_handle size i); Wait (slice_handle size i)])
      (seq 0 (S k)) /\
  pending (snd r) = None.
Proof.
  intros Hk H Hr Ho r. unfold r.
  rewrite overlapped_loop_refines by lia.
  rewrite (run_overlapped_raise sched outcome size n 1 k)
    by (try assumption; try lia; apply ready_boot; exact H).
  cbn [fst snd]. rewrite log_raised_prefix.
  change (log (boot hm dm)) with (@nil event). rewrite app_nil_l.
  split; [reflexivity|]. split; [|split; [|split]].
  - destruct (step_events_last size n 1 k) as [p Ep]. rewrite Ep.
    exists (in_events 0 ++ flat_map (step_events size n 1) (seq 0 k) ++ p).
    rewrite <- !app_assoc. reflexivity.
  - intros h Hin. rewrite !in_app_iff in Hin. destruct Hin as [Hin|[Hin|Hin]].
    + simpl in Hin. intuition discriminate.
    + apply in_flat_map in Hin as (i & Hi & Hin). apply in_seq in Hi.
      apply start_in_step in Hin. subst h. unfold handle_slice. simpl. lia.
    + apply start_in_step in Hin. subst h. unfold handle_slice. simpl. lia.
  - rewrite !List.filter_app, filter_flat_map, filter_invocation_step.
    rewrite seq_S, flat_map_app. simpl. f_equal.
    apply flat_map_ext. intros i. apply filter_invocation_step.
  - refine (proj1 (ready_step_effect outcome size n n 1 k _ _)).
    apply (ready_iterate n).
    + intros i x. apply ready_step_effect.
    + apply (ready_iterate n); [intros i x; apply ready_xfer_in|].
      apply ready_boot. exact H.
Qed.

Lemma raising_wait_stops_the_loop_witness :
  let r := overlapped_loop (fun _ => 1%nat) (fun i => if (i =? 1)%nat then Raises else Completed)
             2 3 (boot example_host example_dev) in
  fst r = Exn RuntimeError /\
  (exists pre, log (snd r) = pre ++ [Wait (slice_handle 2 1)]) /\
  (forall h, In (Start h) (log (snd r)) -> (handle_slice h <= 1)%nat) /\
  List.filter is_invocation (log (snd r)) =
    flat_map (fun i => [Start (slice_handle 2 i); Wait (slice_handle 2 i)])
      (seq 0 2) /\
  pending (snd r) = None.
Proof.
  apply (raising_wait_stops_the_loop (fun _ => 1%nat)
           (fun i => if (i =? 1)%nat then Raises else Completed) 2 3 1).
  - lia.
  - intros b; destruct b; reflexivity.
  - reflexivity.
  - intros i Hi. destruct i; [discriminate|lia].
Defined.

(** C7, as stated, fails on the loop: a fault that [wait] reports in its
    return value is discarded and slice 1 is started all the same, and a
    fault that [wait] raises comes out as the runtime's exception, not as
    an error naming slice 0 and the invoke phase. *)
Lemma fault_is_not_tagged :
  let reported := overlapped_loop (fun _ => 1%nat)
                    (fun i => if (i =? 0)%nat then Faulted else Completed)
                    2 3 (boot example_host example_dev) in
  let raised := overlapped_loop (fun _ => 1%nat)
                  (fun i => if (i =? 0)%nat then Raises else Completed)
                  2 3 (boot example_host example_dev) in
  fst reported = Ok tt /\
  In (Start (slice_handle 2 1)) (log (snd reported)) /\
  fst raised = Exn RuntimeError /\
  ~ (fst reported = Exn (InvocationFailure 0 Invoke) /\
     forall j, (0 < j)%nat -> ~ In (Start (slice_handle 2 j)) (log (snd reported))) /\
  ~ (fst raised = Exn (InvocationFailure 0 Invoke)).
Proof.
  vm_compute. repeat split.
  - right. right. right. right. right. right. left. reflexivity.
  - intros [E _]. discriminate.
  - intros E. discriminate.
Qed.

(** C8, as the loop is written: it checks no argument and never fails
    with [InvalidArgument]; whatever it is run on, it can only raise the
    array library's [IndexError] or an error of the runtime, and with
    three buffers of [n >= 1] slices it raises nothing. *)
Theorem loop_validates_nothing sched outcome size n hm dm :
  (1 <= n)%nat -> has_slices n hm ->
  (forall i, (i < n)%nat -> outcome i <> Raises) ->
  fst (overlapped_loop sched outcome size n (boot hm dm)) = Ok tt /\
  (forall k m, fst (overlapped_loop sched outcome size k m) <> Exn InvalidArgument) /\
  (forall k m e, fst (overlapped_loop sched outcome size k m) = Exn e ->
     e = IndexError \/ e = RuntimeError \/ e = DispatchError).
Proof.
  intros Hn H Ho.
  assert (T : forall k m e, fst (overlapped_loop sched outcome size k m) = Exn e ->
                            runtime_exn e).
  { intros k m e E.
    destruct (overlapped_loop sched outcome size k m) as [r m'] eqn:R. simpl in E. subst r.
    exact (tame_overlapped_loop sched outcome size k m e m' R). }
  split; [|split].
  - rewrite overlapped_loop_boot by assumption. reflexivity.
  - intros k m E. destruct (T k m _ E) as [D|[D|D]]; discriminate.
  - exact T.
Qed.

Lemma loop_validates_nothing_witness :
  fst (overlapped_loop (fun _ => 1%nat) (fun _ => Completed) 2 3
         (boot example_host example_dev)) = Ok tt /\
  (forall k m, fst (overlapped_loop (fun _ => 1%nat) (fun _ => Completed) 2 k m)
               <> Exn InvalidArgument) /\
  (forall k m e, fst (overlapped_loop (fun _ => 1%nat) (fun _ => Completed) 2 k m) = Exn e ->
     e = IndexError \/ e = RuntimeError \/ e = DispatchError).
Proof.
  apply (loop_validates_nothing (fun _ => 1%nat) (fun _ => Completed) 2 3
           example_host example_dev).
  - lia.
  - intros b; destruct b; reflexivity.
  - intros i _; discriminate.
Defined.

(** C8, as stated, fails on the loop: with an output buffer one slice
    short of the inputs the loop transfers and invokes before it fails,
    and then with [IndexError]; with a slice count of zero it transfers
    three slices and returns normally. *)
Lemma mismatch_is_not_rejected :
  let short := overlapped_loop (fun _ => 1%nat) (fun _ => Completed) 2 2
                 (boot (Memory [[1; 2]; [3; 4]] [[10; 20]; [30; 40]] [[0; 0]])
                       (Memory [[0; 0]; [0; 0]] [[0; 0]; [0; 0]] [[0; 0]])) in
  let empty := overlapped_loop (fun _ => 1%nat) (fun _ => Completed) 2 0
                 (boot example_host example_dev) in
  fst short = Exn IndexError /\
  log (snd short) =
    [SyncToDevice (In1, 0%nat); SyncToDevice (In2, 0%nat); Start (slice_handle 2 0);
     SyncToDevice (In1, 1%nat); SyncToDevice (In2, 1%nat); Wait (slice_handle 2 0)] /\
  fst empty = Ok tt /\
  log (snd empty) =
    [SyncToDevice (In1, 0%nat); SyncToDevice (In2, 0%nat); SyncFromDevice (Out, 2%nat)] /\
  ~ (fst short = Exn InvalidArgument /\ log (snd short) = []) /\
  ~ (fst empty = Exn InvalidArgument /\ log (snd empty) = []).
Proof.
  vm_compute. repeat split; intros [E _]; discriminate.
Qed.

(** * More of the notebook *)

(** X1: run with the compute unit idle on buffers of [n] slices, the
    serial loop and the overlapped loop both leave the host copy and the
    device copy of all three buffers equal: the inputs as they were and
    [in1 + in2] in the output, with the compute unit idle again. *)
Theorem loops_leave_copies_in_sync sched outcome n sz m :
  (1 <= n)%nat -> pending m = None ->
  has_shape n sz (host m) -> has_shape n sz (dev m) ->
  (forall i, (i < n)%nat -> outcome i = Completed) ->
  let rs := serial_loop outcome (Z.of_nat sz) n m in
  let rl := overlapped_loop sched outcome (Z.of_nat sz) n m in
  fst rs = Ok tt /\ fst rl = Ok tt /\
  host (snd rs) = settled_memory (mem_in1 (host m)) (mem_in2 (host m)) /\
  dev (snd rs) = host (snd rs) /\
  host (snd rl) = host (snd rs) /\
  dev (snd rl) = host (snd rl) /\
  pending (snd rs) = None /\ pending (snd rl) = None.
Proof.
  intros Hn Pm Hh Hd Ho rs rl.
  destruct (serial_loop_settles outcome (Z.of_nat sz) n sz eq_refl Ho m Pm Hh Hd)
    as (ms & Es & Ps & Hs & Ds).
  destruct (overlapped_loop_settles sched outcome (Z.of_nat sz) n sz eq_refl Ho Hn m Pm Hh Hd)
    as (ml & El & Pl & Hl & Dl).
  unfold rs, rl. rewrite Es, El. cbn [fst snd].
  rewrite Hs, Ds, Hl, Dl. repeat split; assumption.
Qed.

Lemma loops_leave_copies_in_sync_witness :
  let rs := serial_loop (fun _ => Completed) (Z.of_nat 2) 3 (boot example_host example_dev) in
  let rl := overlapped_loop (fun _ => 1%nat) (fun _ => Completed) (Z.of_nat 2) 3
              (boot example_host example_dev) in
  fst rs = Ok tt /\ fst rl = Ok tt /\
  host (snd rs) = settled_memory (mem_in1 (host (boot example_host example_dev)))
                    (mem_in2 (host (boot example_host example_dev))) /\
  dev (snd rs) = host (snd rs) /\
  host (snd rl) = host (snd rs) /\
  dev (snd rl) = host (snd rl) /\
  pending (snd rs) = None /\ pending (snd rl) = None.
Proof.
  apply (loops_leave_copies_in_sync (fun _ => 1%nat) (fun _ => Completed) 3 2
           (boot example_host example_dev)).
  - lia.
  - reflexivity.
  - intros b; destruct b; (split; [reflexivity|repeat constructor]).
  - intros b; destruct b; (split; [reflexivity|repeat constructor]).
  - intros i _; reflexivity.
Defined.

(** X2: under [%%timeit] a cell is run again and again; however many
    runs are made in a row, the serial loop and the overlapped loop leave
    the buffers, on the host and on the device, as one run leaves
    them. *)
Theorem timeit_leaves_one_run sched outcome n sz k m :
  (1 <= n)%nat -> pending m = None ->
  has_shape n sz (host m) -> has_shape n sz (dev m) ->
  (forall i, (i < n)%nat -> outcome i = Completed) ->
  let s1 := serial_loop outcome (Z.of_nat sz) n m in
  let sk := timeit (S k) (serial_loop outcome (Z.of_nat sz) n) m in
  let l1 := overlapped_loop sched outcome (Z.of_nat sz) n m in
  let lk := timeit (S k) (overlapped_loop sched outcome (Z.of_nat sz) n) m in
  fst sk = Ok tt /\ host (snd sk) = host (snd s1) /\ dev (snd sk) = dev (snd s1) /\
  fst lk = Ok tt /\ host (snd lk) = host (snd l1) /\ dev (snd lk) = dev (snd l1).
Proof.
  intros Hn Pm Hh Hd Ho s1 sk l1 lk.
  pose proof (serial_loop_settles outcome (Z.of_nat sz) n sz eq_refl Ho) as Ss.
  pose proof (overlapped_loop_settles sched outcome (Z.of_nat sz) n sz eq_refl Ho Hn) as Sl.
  destruct (Ss m Pm Hh Hd) as (a1 & Ea1 & _ & Ha1 & Da1).
  destruct (Sl m Pm Hh Hd) as (b1 & Eb1 & _ & Hb1 & Db1).
  destruct (timeit_settles n sz k _ Ss m Pm Hh Hd) as (ak & Eak & _ & Hak & Dak).
  destruct (timeit_settles n sz k _ Sl m Pm Hh Hd) as (bk & Ebk & _ & Hbk & Dbk).
  unfold s1, sk, l1, lk. rewrite Ea1, Eb1, Eak, Ebk. cbn [fst snd].
  rewrite Ha1, Da1, Hb1, Db1, Hak, Dak, Hbk, Dbk. repeat split; reflexivity.
Qed.

Lemma timeit_leaves_one_run_witness :
  let m := boot example_host example_dev in
  let s1 := serial_loop (fun _ => Completed) (Z.of_nat 2) 3 m in
  let sk := timeit 3 (serial_loop (fun _ => Completed) (Z.of_nat 2) 3) m in
  let l1 := overlapped_loop (fun _ => 1%nat) (fun _ => Completed) (Z.of_nat 2) 3 m in
  let lk := timeit 3 (overlapped_loop (fun _ => 1%nat) (fun _ => Completed) (Z.of_nat 2) 3) m in
  fst sk = Ok tt /\ host (snd sk) = host (snd s1) /\ dev (snd sk) = dev (snd s1) /\
  fst lk = Ok tt /\ host (snd lk) = host (snd l1) /\ dev (snd lk) = dev (snd l1).
Proof.
  apply (timeit_leaves_one_run (fun _ => 1%nat) (fun _ => Completed) 3 2 2
           (boot example_host example_dev)).
  - lia.
  - reflexivity.
  - intros b; destruct b; (split; [reflexivity|repeat constructor]).
  - intros b; destruct b; (split; [reflexivity|repeat constructor]).
  - intros i _; reflexivity.
Defined.

Lemma imap_over_imap {A} (f : nat -> A) (g : nat -> A -> A) (t : list A) :
  imap (fun j _ => f j) (imap g t) = imap (fun j _ => f j) t.
Proof.
  apply list_eq. intros j. rewrite !list_lookup_imap.
  destruct (t !! j); reflexivity.
Qed.

Lemma drawn_drawn r r' (x : list (list Z)) : drawn r (drawn r' x) = drawn r x.
Proof.
  unfold drawn. apply list_eq. intros i. rewrite !list_lookup_imap.
  destruct (x !! i) as [t|]; simpl; [|reflexivity].
  rewrite imap_over_imap. reflexivity.
Qed.

Lemma check_settled a b :
  np_array_equal (mem_out (settled_memory a b))
    (np_add (mem_in1 (settled_memory a b)) (mem_in2 (settled_memory a b))) = true.
Proof. apply np_array_equal_eq. reflexivity. Qed.

(** X3: the cells of example 3 in the notebook's order, from the random
    initialisation to the last check: both [np.array_equal] checks
    return [True].  The overlapped run works on the inputs drawn in cell
    31, not on what the serial run left on the device, and every element
    of the cleared output is overwritten with the exact sum of the two
    draws. *)
Theorem example3_checks_pass sched outcome n sz r1 r2 r3 r4 m :
  (1 <= n)%nat -> pending m = None ->
  has_shape n sz (host m) -> has_shape n sz (dev m) ->
  (forall i, (i < n)%nat -> outcome i = Completed) ->
  (forall i j, 0 <= r3 i j < 1000) -> (forall i j, 0 <= r4 i j < 1000) ->
  let r := example3 sched outcome (Z.of_nat sz) n r1 r2 r3 r4 m in
  fst r = Ok (true, true) /\
  mem_in1 (host (snd r)) = drawn r3 (mem_in1 (host m)) /\
  mem_in2 (host (snd r)) = drawn r4 (mem_in2 (host m)) /\
  mem_out (host (snd r)) =
    exact_add (drawn r3 (mem_in1 (host m))) (drawn r4 (mem_in2 (host m))) /\
  dev (snd r) = host (snd r).
Proof.
  intros Hn Pm Hh Hd Ho R3 R4 r.
  assert (E : exists m5,
             example3 sched outcome (Z.of_nat sz) n r1 r2 r3 r4 m = (Ok (true, true), m5) /\
             host m5 = settled_memory (drawn r3 (mem_in1 (host m)))
                         (drawn r4 (mem_in2 (host m))) /\
             dev m5 = host m5).
  { unfold example3.
    unfold bind at 1. unfold randomize at 1.
    unfold bind at 1. unfold randomize at 1.
    set (m2 := set_host _ (set_host _ m)).
    assert (P2 : pending m2 = None) by exact Pm.
    assert (Hh2 : has_shape n sz (host m2)).
    { unfold m2. cbn [host set_host]. apply has_shape_drawn. apply has_shape_drawn.
      exact Hh. }
    assert (Hd2 : has_shape n sz (dev m2)) by exact Hd.
    destruct (serial_loop_settles outcome (Z.of_nat sz) n sz eq_refl Ho m2 P2 Hh2 Hd2)
      as (m3 & E3 & P3 & Hh3 & Hd3).
    unfold bind at 1. rewrite E3.
    unfold bind at 1. unfold reference_check at 1. rewrite Hh3, check_settled.
    unfold bind at 1. unfold cell31, bind, randomize, fill. cbn beta iota.
    set (m4 := set_host _ (set_host _ (set_host _ m3))).
    assert (P4 : pending m4 = None) by exact P3.
    assert (Hh4 : has_shape n sz (host m4)).
    { unfold m4. cbn [host set_host]. apply has_shape_filled. apply has_shape_drawn.
      apply has_shape_drawn. rewrite Hh3. apply has_shape_settled. exact Hh2. }
    assert (Hd4 : has_shape n sz (dev m4)).
    { unfold m4. cbn [dev set_host]. rewrite Hd3. apply has_shape_settled. exact Hh2. }
    destruct (overlapped_loop_settles sched outcome (Z.of_nat sz) n sz eq_refl Ho Hn
                m4 P4 Hh4 Hd4) as (m5 & E5 & P5 & Hh5 & Hd5).
    rewrite E5. unfold reference_check, ret. cbn beta iota.
    rewrite Hh5, check_settled.
    assert (I1 : mem_in1 (host m4) = drawn r3 (mem_in1 (host m))).
    { unfold m4. cbn [host set_host mem_set mem_get mem_in1]. rewrite Hh3.
      unfold m2. cbn [host set_host mem_set mem_get mem_in1 settled_memory].
      apply drawn_drawn. }
    assert (I2 : mem_in2 (host m4) = drawn r4 (mem_in2 (host m))).
    { unfold m4. cbn [host set_host mem_set mem_get mem_in2 mem_in1]. rewrite Hh3.
      unfold m2. cbn [host set_host mem_set mem_get mem_in2 mem_in1 settled_memory].
      apply drawn_drawn. }
    exists m5. split; [reflexivity|]. rewrite Hd5, <- Hh5. rewrite Hh5, I1, I2.
    split; reflexivity. }
  destruct E as (m5 & E & H5 & D5). unfold r. rewrite E. cbn [fst snd].
  rewrite D5, H5. simpl.
  split; [reflexivity|]. split; [reflexivity|]. split; [reflexivity|]. split; [|reflexivity].
  apply np_add_exact; apply in_range_drawn; assumption.
Qed.

Lemma example3_checks_pass_witness :
  let m := boot example_host example_dev in
  let r := example3 (fun _ => 1%nat) (fun _ => Completed) (Z.of_nat 2) 3
             (fun i j => Z.of_nat (i + j)) (fun i j => Z.of_nat (i * j))
             (fun i j => Z.of_nat (i + 2 * j) mod 1000) (fun _ _ => 999) m in
  fst r = Ok (true, true) /\
  mem_in1 (host (snd r)) = drawn (fun i j => Z.of_nat (i + 2 * j) mod 1000) (mem_in1 (host m)) /\
  mem_in2 (host (snd r)) = drawn (fun _ _ => 999) (mem_in2 (host m)) /\
  mem_out (host (snd r)) =
    exact_add (drawn (fun i j => Z.of_nat (i + 2 * j) mod 1000) (mem_in1 (host m)))
              (drawn (fun _ _ => 999) (mem_in2 (host m))) /\
  dev (snd r) = host (snd r).
Proof.
  apply (example3_checks_pass (fun _ => 1%nat) (fun _ => Completed) 3 2).
  - lia.
  - reflexivity.
  - intros b; destruct b; (split; [reflexivity|repeat constructor]).
  - intros b; destruct b; (split; [reflexivity|repeat constructor]).
  - intros i _; reflexivity.
  - intros i j. apply Z.mod_pos_bound. lia.
  - intros i j. lia.
Defined.

Lemma in_step_events size n d i x :
  In x (step_events size n d i) <->
  x = Start (slice_handle size i) \/
  ((i + d < n)%nat /\ (x = SyncToDevice (In1, (i + d)%nat) \/ x = SyncToDevice (In2, (i + d)%nat))) \/
  ((d <= i)%nat /\ x = SyncFromDevice (Out, (i - d)%nat)) \/
  x = Wait (slice_handle size i).
Proof.
  unfold step_events, in_events, out_events.
  destruct (i + d <? n)%nat eqn:E1; destruct (d <=? i)%nat eqn:E2;
    [apply Nat.ltb_lt in E1|apply Nat.ltb_lt in E1|apply Nat.ltb_ge in E1|apply Nat.ltb_ge in E1];
    [apply Nat.leb_le in E2|apply Nat.leb_gt in E2|apply Nat.leb_le in E2|apply Nat.leb_gt in E2];
    simpl; intuition (try lia; auto).
Qed.

Lemma iteration_of_step size n d i x :
  In x (step_events size n d i) -> iteration_of d x = i.
Proof.
  rewrite in_step_events.
  intros [->|[[H [->| ->]]|[[H ->]| ->]]]; unfold iteration_of, handle_slice; simpl; lia.
Qed.

Lemma NoDup_step_events size n d i : NoDup (step_events size n d i).
Proof.
  unfold step_events, in_events, out_events.
  destruct (i + d <? n)%nat; destruct (d <=? i)%nat; simpl;
    repeat (apply NoDup_cons; split;
            [rewrite ?elem_of_cons, elem_of_nil; intuition congruence|]);
    apply NoDup_nil; exact I.
Qed.

Lemma NoDup_flat_map_key {A} (f : nat -> list A) (key : A -> nat) (l : list nat) :
  NoDup l -> (forall i, NoDup (f i)) -> (forall i x, In x (f i) -> key x = i) ->
  NoDup (flat_map f l).
Proof.
  intros Hl Hf Hk. induction Hl as [|a l Ha Hl IH]; simpl.
  - apply NoDup_nil. exact I.
  - apply NoDup_app. split; [apply Hf|]. split; [|exact IH].
    intros x Hx Hin. apply list_elem_of_In in Hx. apply list_elem_of_In in Hin.
    apply in_flat_map in Hin as (j & Hj & Hxj).
    apply Ha. rewrite <- (Hk a x Hx), (Hk j x Hxj). apply list_elem_of_In. exact Hj.
Qed.

Lemma NoDup_overlapped_trace size n d :
  (1 <= d <= n)%nat -> NoDup (overlapped_trace size n d).
Proof.
  intros Hd. unfold overlapped_trace. apply NoDup_app. split; [|split].
  - apply (NoDup_flat_map_key in_events (fun e => match e with
                                                  | SyncToDevice v => snd v
                                                  | _ => 0%nat
                                                  end)).
    + apply NoDup_seq.
    + intros i. unfold in_events.
      repeat (apply NoDup_cons; split;
              [rewrite ?elem_of_cons, elem_of_nil; intuition congruence|]).
      apply NoDup_nil; exact I.
    + intros i x [<-|[<-|[]]]; reflexivity.
  - intros x Hx Hin. apply list_elem_of_In in Hx. apply list_elem_of_In in Hin.
    apply in_flat_map in Hx as (j & Hj & Hx). apply in_seq in Hj.
    apply in_app_iff in Hin as [Hin|Hin]; apply in_flat_map in Hin as (i & Hi & Hin).
    + apply in_step_events in Hin. unfold in_events in Hx. simpl in Hx.
      intuition (subst; try discriminate; try congruence);
        match goal with H : SyncToDevice _ = SyncToDevice _ |- _ => injection H; lia end.
    + unfold in_events, out_events in *. simpl in *. intuition (subst; discriminate).
  - apply NoDup_app. split; [|split].
    + apply (NoDup_flat_map_key (step_events size n d) (iteration_of d)).
      * apply NoDup_seq.
      * intros i. apply NoDup_step_events.
      * intros i x. apply iteration_of_step.
    + intros x Hx Hin. apply list_elem_of_In in Hx. apply list_elem_of_In in Hin.
      apply in_flat_map in Hx as (i & Hi & Hx). apply in_seq in Hi.
      apply in_flat_map in Hin as (j & Hj & Hin). apply in_seq in Hj.
      apply in_step_events in Hx. unfold out_events in Hin. simpl in Hin.
      intuition (subst; try discriminate);
        match goal with H : SyncFromDevice _ = SyncFromDevice _ |- _ => injection H; lia end.
    + apply (NoDup_flat_map_key out_events (fun e => match e with
                                                     | SyncFromDevice v => snd v
                                                     | _ => 0%nat
                                                     end)).
      * apply NoDup_seq.
      * intros i. unfold out_events. apply NoDup_cons. split; [|apply NoDup_nil; exact I].
        rewrite elem_of_nil. tauto.
      * intros i x [<-|[]]. reflexivity.
Qed.

Lemma NoDup_serial_trace size n : NoDup (flat_map (serial_events size) (seq 0 n)).
Proof.
  apply (NoDup_flat_map_key (serial_events size) (iteration_of 0)).
  - apply NoDup_seq.
  - intros i. unfold serial_events, in_events, out_events. simpl.
    repeat (apply NoDup_cons; split;
            [rewrite ?elem_of_cons, elem_of_nil; intuition congruence|]).
    apply NoDup_nil; exact I.
  - intros i x. unfold serial_events, in_events, out_events. simpl.
    intros [<-|[<-|[<-|[<-|[]]]]]; unfold iteration_of, handle_slice; simpl; lia.
Qed.

Lemma transfer_in_serial_trace size n e :
  event_view e <> None ->
  (In e (flat_map (serial_events size) (seq 0 n)) <->
   exists j, (j < n)%nat /\
     (e = SyncToDevice (In1, j) \/ e = SyncToDevice (In2, j) \/ e = SyncFromDevice (Out, j))).
Proof.
  intros Hv. rewrite in_flat_map. split.
  - intros (j & Hj & He). apply in_seq in Hj. exists j. split; [lia|].
    unfold serial_events, in_events, out_events in He. simpl in He.
    destruct He as [<-|[<-|[<-|[<-|[]]]]]; auto. exfalso. apply Hv. reflexivity.
  - intros (j & Hj & He). exists j. split; [apply in_seq; lia|].
    unfold serial_events, in_events, out_events. simpl.
    destruct He as [->|[->| ->]]; auto.
Qed.

Lemma transfer_in_overlapped_trace size n d e :
  (1 <= d <= n)%nat -> event_view e <> None ->
  (In e (overlapped_trace size n d) <->
   exists j, (j < n)%nat /\
     (e = SyncToDevice (In1, j) \/ e = SyncToDevice (In2, j) \/ e = SyncFromDevice (Out, j))).
Proof.
  intros Hd Hv. split.
  - unfold overlapped_trace. rewrite !in_app_iff, !in_flat_map.
    intros [(j & Hj & He)|[(i & Hi & He)|(j & Hj & He)]].
    + apply in_seq in Hj. exists j. split; [lia|].
      destruct He as [<-|[<-|[]]]; auto.
    + apply in_seq in Hi. apply in_step_events in He.
      destruct He as [->|[[H [->| ->]]|[[H ->]| ->]]].
      * exfalso. apply Hv. reflexivity.
      * exists (i + d)%nat. auto.
      * exists (i + d)%nat. auto.
      * exists (i - d)%nat. split; [lia|auto].
      * exfalso. apply Hv. reflexivity.
    + apply in_seq in Hj. exists j. split; [lia|].
      destruct He as [<-|[]]. auto.
  - intros (j & Hj & [->|[->| ->]]).
    + unfold overlapped_trace. rewrite !in_app_iff, !in_flat_map.
      destruct (decide (j < d)%nat) as [Hlt|Hge].
      * left. exists j. split; [apply in_seq; lia|]. left. reflexivity.
      * right. left. exists (j - d)%nat. split; [apply in_seq; lia|].
        apply in_step_events. right. left. replace (j - d + d)%nat with j by lia. auto.
    + unfold overlapped_trace. rewrite !in_app_iff, !in_flat_map.
      destruct (decide (j < d)%nat) as [Hlt|Hge].
      * left. exists j. split; [apply in_seq; lia|]. right. left. reflexivity.
      * right. left. exists (j - d)%nat. split; [apply in_seq; lia|].
        apply in_step_events. right. left. replace (j - d + d)%nat with j by lia. auto.
    + apply in_trace_out; assumption.
Qed.

(** X4: the overlapped loop makes exactly the transfers of the serial
    loop, each of them once: neither log has a repeated call, and both
    hold the same transfers, which are the transfer in of slice [j] of
    each input and the transfer out of slice [j] of the output for every
    [j] below the slice count. *)
Theorem each_transfer_made_once sched outcome size n hm dm :
  (1 <= n)%nat -> has_slices n hm ->
  (forall i, (i < n)%nat -> outcome i <> Raises) ->
  let ts := log (snd (serial_loop outcome size n (boot hm dm))) in
  let tl := log (snd (overlapped_loop sched outcome size n (boot hm dm))) in
  NoDup ts /\ NoDup tl /\
  (forall e, event_view e <> None ->
     (In e tl <-> In e ts) /\
     (In e tl <-> exists j, (j < n)%nat /\
        (e = SyncToDevice (In1, j) \/ e = SyncToDevice (In2, j) \/
         e = SyncFromDevice (Out, j)))).
Proof.
  intros Hn H Ho ts tl. unfold ts, tl.
  rewrite log_overlapped_loop by assumption.
  rewrite serial_loop_boot by assumption. cbn [snd]. rewrite log_serial.
  change (log (boot hm dm)) with (@nil event). rewrite app_nil_l.
  split; [apply NoDup_serial_trace|]. split; [apply NoDup_overlapped_trace; lia|].
  intros e Hv. split.
  - rewrite (transfer_in_overlapped_trace size n 1 e) by (try assumption; lia).
    rewrite (transfer_in_serial_trace size n e Hv). reflexivity.
  - apply transfer_in_overlapped_trace; [lia|exact Hv].
Qed.

Lemma each_transfer_made_once_witness :
  let ts := log (snd (serial_loop (fun _ => Completed) 2 3 (boot example_host example_dev))) in
  let tl := log (snd (overlapped_loop (fun _ => 1%nat) (fun _ => Completed) 2 3
                        (boot example_host example_dev))) in
  NoDup ts /\ NoDup tl /\
  (forall e, event_view e <> None ->
     (In e tl <-> In e ts) /\
     (In e tl <-> exists j, (j < 3)%nat /\
        (e = SyncToDevice (In1, j) \/ e = SyncToDevice (In2, j) \/
         e = SyncFromDevice (Out, j)))).
Proof.
  apply (each_transfer_made_once (fun _ => 1%nat) (fun _ => Completed) 2 3).
  - lia.
  - intros b; destruct b; reflexivity.
  - intros i _; discriminate.
Defined.

(** X5: on buffers with more slices than the loop bound, neither loop
    touches a slice from the bound on: on the host and on the device,
    every buffer holds there after the run what it held before. *)
Theorem loops_stay_below_the_bound sched outcome size n m :
  (1 <= n)%nat -> pending m = None ->
  (forall b, (n <= length (mem_get b (host m)))%nat) ->
  (forall i, (i < n)%nat -> outcome i <> Raises) ->
  let rs := serial_loop outcome size n m in
  let rl := overlapped_loop sched outcome size n m in
  fst rs = Ok tt /\ fst rl = Ok tt /\
  (forall b j, (n <= j)%nat ->
     mem_get b (host (snd rs)) !! j = mem_get b (host m) !! j /\
     mem_get b (dev (snd rs)) !! j = mem_get b (dev m) !! j /\
     mem_get b (host (snd rl)) !! j = mem_get b (host m) !! j /\
     mem_get b (dev (snd rl)) !! j = mem_get b (dev m) !! j).
Proof.
  intros Hn Pm L Ho rs rl.
  assert (R : ready n m) by (split; [exact Pm|exact L]).
  unfold rs, rl. rewrite overlapped_loop_refines by exact Hn.
  rewrite serial_loop_run by assumption.
  rewrite run_overlapped_run by (try assumption; lia).
  cbn [fst snd]. split; [reflexivity|]. split; [reflexivity|].
  intros b j Hj.
  assert (Us : untouched n m (iterate (serial_effect outcome size) (seq 0 n) m)).
  { apply untouched_iterate. intros i x Hi. apply in_seq in Hi.
    apply untouched_serial_effect. lia. }
  pose proof (untouched_overlapped_effect outcome size n 1 m Hn) as Ul.
  destruct (Us b j Hj) as [A1 A2]. destruct (Ul b j Hj) as [B1 B2].
  repeat split; assumption.
Qed.

Lemma loops_stay_below_the_bound_witness :
  let m := boot example_host example_dev in
  let rs := serial_loop (fun _ => Completed) 2 2 m in
  let rl := overlapped_loop (fun _ => 1%nat) (fun _ => Completed) 2 2 m in
  fst rs = Ok tt /\ fst rl = Ok tt /\
  (forall b j, (2 <= j)%nat ->
     mem_get b (host (snd rs)) !! j = mem_get b (host m) !! j /\
     mem_get b (dev (snd rs)) !! j = mem_get b (dev m) !! j /\
     mem_get b (host (snd rl)) !! j = mem_get b (host m) !! j /\
     mem_get b (dev (snd rl)) !! j = mem_get b (dev m) !! j).
Proof.
  apply (loops_stay_below_the_bound (fun _ => 1%nat) (fun _ => Completed) 2 2
           (boot example_host example_dev)).
  - lia.
  - reflexivity.
  - intros b; destruct b; simpl; lia.
  - intros i _; discriminate.
Defined.

(** X6: when the loop bound exceeds the slice count [k] of the buffers,
    the serial loop processes all [k] slices as in a complete run (both
    copies settled, nothing in flight) and then fails with [IndexError]
    on the first index beyond the buffers. *)
Theorem serial_loop_beyond_buffers outcome n k sz m :
  (k < n)%nat -> pending m = None ->
  has_shape k sz (host m) -> has_shape k sz (dev m) ->
  (forall i, (i < k)%nat -> outcome i = Completed) ->
  let r := serial_loop outcome (Z.of_nat sz) n m in
  fst r = Exn IndexError /\
  pending (snd r) = None /\
  host (snd r) = settled_memory (mem_in1 (host m)) (mem_in2 (host m)) /\
  dev (snd r) = host (snd r) /\
  log (snd r) = log m ++ flat_map (serial_events (Z.of_nat sz)) (seq 0 k).
Proof.
  intros Hk Pm Hh Hd Ho r.
  assert (R : ready k m).
  { split; [exact Pm|]. intros b. unfold hlen. destruct (Hh b) as [L _]. lia. }
  assert (Hr : forall i, (i < k)%nat -> outcome i <> Raises)
    by (intros i Hi; rewrite (Ho i Hi); discriminate).
  destruct (serial_loop_settles outcome (Z.of_nat sz) k sz eq_refl Ho m Pm Hh Hd)
    as (m' & E & P' & H' & D').
  rewrite (serial_loop_run outcome (Z.of_nat sz) k m R Hr) in E. injection E as <-.
  unfold r. rewrite (serial_loop_beyond outcome (Z.of_nat sz) n k m Hk R).
  - cbn [fst snd]. rewrite H', D', log_serial. repeat split; assumption.
  - unfold hlen. apply (Hh In1).
  - exact Hr.
Qed.

Lemma serial_loop_beyond_buffers_witness :
  let m := boot example_host example_dev in
  let r := serial_loop (fun _ => Completed) (Z.of_nat 2) 10 m in
  fst r = Exn IndexError /\
  pending (snd r) = None /\
  host (snd r) = settled_memory (mem_in1 (host m)) (mem_in2 (host m)) /\
  dev (snd r) = host (snd r) /\
  log (snd r) = log m ++ flat_map (serial_events (Z.of_nat 2)) (seq 0 3).
Proof.
  apply (serial_loop_beyond_buffers (fun _ => Completed) 10 3 2
           (boot example_host example_dev)).
  - lia.
  - reflexivity.
  - intros b; destruct b; (split; [reflexivity|repeat constructor]).
  - intros b; destruct b; (split; [reflexivity|repeat constructor]).
  - intros i _; reflexivity.
Defined.

(** X7: when the loop bound exceeds the slice count [k] of the buffers,
    the overlapped loop fails with [IndexError] one iteration earlier
    than the serial loop, on the prefetch of slice [k]: the invocation on
    slice [k - 1] has been started and is never waited on, and the
    outputs of slices [k - 2] and [k - 1] are never transferred out. *)
Theorem overlapped_loop_beyond_buffers sched outcome size n k hm dm :
  (1 <= k < n)%nat -> has_slices k hm ->
  (forall i, (i < k - 1)%nat -> outcome i <> Raises) ->
  let r := overlapped_loop sched outcome size n (boot hm dm) in
  fst r = Exn IndexError /\
  in_flight (snd r) = Some (slice_handle size (k - 1)) /\
  log (snd r) =
    in_events 0 ++ flat_map (step_events size n 1) (seq 0 (k - 1))
    ++ [Start (slice_handle size (k - 1))] /\
  ~ In (Wait (slice_handle size (k - 1))) (log (snd r)) /\
  (forall j, In (SyncFromDevice (Out, j)) (log (snd r)) -> (j + 2 < k)%nat).
Proof.
  intros Hk H Ho r.
  destruct (overlapped_loop_beyond sched outcome size n k (boot hm dm) Hk
              (ready_boot k hm dm H)) as (m1 & E & F & L).
  - unfold hlen. apply (H In1).
  - exact Ho.
  - unfold r. rewrite E. cbn [fst snd].
    change (log (boot hm dm)) with (@nil event) in L. rewrite app_nil_l in L.
    rewrite L. split; [reflexivity|]. split; [exact F|]. split; [reflexivity|]. split.
    + rewrite !in_app_iff, in_flat_map. intros [Hin|[(i & Hi & Hin)|Hin]].
      * simpl in Hin. intuition discriminate.
      * apply in_seq in Hi. apply in_step_events in Hin.
        unfold slice_handle in Hin.
        intuition (try discriminate);
          match goal with
          | E : Wait _ = Wait _ |- _ => injection E; lia
          end.
      * simpl in Hin. intuition discriminate.
    + intros j. rewrite !in_app_iff, in_flat_map. intros [Hin|[(i & Hi & Hin)|Hin]].
      * simpl in Hin. intuition discriminate.
      * apply in_seq in Hi. apply in_step_events in Hin.
        intuition (try discriminate);
          match goal with
          | E : SyncFromDevice _ = SyncFromDevice _ |- _ => injection E; lia
          end.
      * simpl in Hin. intuition discriminate.
Qed.

Lemma overlapped_loop_beyond_buffers_witness :
  let r := overlapped_loop (fun _ => 1%nat) (fun _ => Completed) 2 10
             (boot example_host example_dev) in
  fst r = Exn IndexError /\
  in_flight (snd r) = Some (slice_handle 2 (3 - 1)) /\
  log (snd r) =
    in_events 0 ++ flat_map (step_events 2 10 1) (seq 0 (3 - 1))
    ++ [Start (slice_handle 2 (3 - 1))] /\
  ~ In (Wait (slice_handle 2 (3 - 1))) (log (snd r)) /\
  (forall j, In (SyncFromDevice (Out, j)) (log (snd r)) -> (j + 2 < 3)%nat).
Proof.
  apply (overlapped_loop_beyond_buffers (fun _ => 1%nat) (fun _ => Completed) 2 10 3).
  - lia.
  - intros b; destruct b; reflexivity.
  - intros i _; discriminate.
Defined.

(** X8: the whole-buffer run of examples 1 and 2 (transfer in both
    inputs, call, transfer out), on buffers of a single plane: it returns
    normally, the check [np.array_equal(out, in1 + in2)] that follows
    returns [True], and both copies are settled. *)
Theorem whole_buffer_run_passes_check outcome sz m :
  pending m = None -> has_shape 1 sz (host m) -> has_shape 1 sz (dev m) ->
  outcome 0%nat = Completed ->
  let r := (cell5 outcome (Z.of_nat sz) >> reference_check) m in
  fst r = Ok true /\
  host (snd r) = settled_memory (mem_in1 (host m)) (mem_in2 (host m)) /\
  dev (snd r) = host (snd r) /\
  log (snd r) = log m ++ [SyncToDevice (In1, 0%nat); SyncToDevice (In2, 0%nat);
                          Call (slice_handle (Z.of_nat sz) 0);
                          SyncFromDevice (Out, 0%nat)].
Proof.
  intros Pm Hh Hd Ho r.
  destruct (cell5_settles outcome (Z.of_nat sz) sz eq_refl Ho m Pm Hh Hd)
    as (m' & E & P' & H' & D').
  assert (L : log m' = log m ++ serial_events (Z.of_nat sz) 0).
  { rewrite cell5_run in E; [|exact Pm|rewrite Ho; discriminate].
    injection E as <-. apply log_serial_effect. }
  unfold r, bind. rewrite E. unfold reference_check. cbn [fst snd].
  rewrite H', D', check_settled, L. repeat split; reflexivity.
Qed.

Lemma whole_buffer_run_passes_check_witness :
  let m := boot (Memory [[1; 2]] [[3; 4]] [[0; 0]]) (Memory [[9; 9]] [[9; 9]] [[9; 9]]) in
  let r := (cell5 (fun _ => Completed) (Z.of_nat 2) >> reference_check) m in
  fst r = Ok true /\
  host (snd r) = settled_memory (mem_in1 (host m)) (mem_in2 (host m)) /\
  dev (snd r) = host (snd r) /\
  log (snd r) = log m ++ [SyncToDevice (In1, 0%nat); SyncToDevice (In2, 0%nat);
                          Call (slice_handle (Z.of_nat 2) 0);
                          SyncFromDevice (Out, 0%nat)].
Proof.
  apply (whole_buffer_run_passes_check (fun _ => Completed) 2
           (boot (Memory [[1; 2]] [[3; 4]] [[0; 0]]) (Memory [[9; 9]] [[9; 9]] [[9; 9]]))).
  - reflexivity.
  - intros b; destruct b; (split; [reflexivity|repeat constructor]).
  - intros b; destruct b; (split; [reflexivity|repeat constructor]).
  - reflexivity.
Defined.

(** X9: the call alone (cells 7 and 19) never writes to the host copy;
    made after the whole-buffer run, it leaves both copies as that run
    left them, so that the check still returns [True] after it. *)
Theorem call_alone_keeps_result outcome sz m :
  pending m = None -> has_shape 1 sz (host m) -> has_shape 1 sz (dev m) ->
  outcome 0%nat = Completed ->
  let r5 := cell5 outcome (Z.of_nat sz) m in
  let r7 := (cell5 outcome (Z.of_nat sz) >> cell7 outcome (Z.of_nat sz)) m in
  fst r7 = Ok tt /\
  host (snd r7) = host (snd r5) /\ dev (snd r7) = dev (snd r5) /\
  fst (reference_check (snd r7)) = Ok true /\
  host (snd (cell7 outcome (Z.of_nat sz) m)) = host m.
Proof.
  intros Pm Hh Hd Ho r5 r7.
  destruct (cell5_settles outcome (Z.of_nat sz) sz eq_refl Ho m Pm Hh Hd)
    as (m' & E & P' & H' & D').
  destruct (cell7_keeps_settled outcome (Z.of_nat sz) sz _ _ m' eq_refl Ho P'
              (has_shape_settled 1 sz (host m) Hh) H' D')
    as (m'' & E7 & H7 & D7 & P7 & L7).
  unfold r5, r7, bind. rewrite E, E7. cbn [fst snd].
  split; [reflexivity|]. split; [exact H7|]. split; [exact D7|]. split.
  - unfold reference_check. cbn [fst]. rewrite H7, H', check_settled. reflexivity.
  - rewrite cell7_run; [|exact Pm|rewrite Ho; discriminate]. cbn [snd].
    rewrite host_execute. reflexivity.
Qed.

Lemma call_alone_keeps_result_witness :
  let m := boot (Memory [[1; 2]] [[3; 4]] [[0; 0]]) (Memory [[9; 9]] [[9; 9]] [[9; 9]]) in
  let r5 := cell5 (fun _ => Completed) (Z.of_nat 2) m in
  let r7 := (cell5 (fun _ => Completed) (Z.of_nat 2)
             >> cell7 (fun _ => Completed) (Z.of_nat 2)) m in
  fst r7 = Ok tt /\
  host (snd r7) = host (snd r5) /\ dev (snd r7) = dev (snd r5) /\
  fst (reference_check (snd r7)) = Ok true /\
  host (snd (cell7 (fun _ => Completed) (Z.of_nat 2) m)) = host m.
Proof.
  apply (call_alone_keeps_result (fun _ => Completed) 2
           (boot (Memory [[1; 2]] [[3; 4]] [[0; 0]]) (Memory [[9; 9]] [[9; 9]] [[9; 9]]))).
  - reflexivity.
  - intros b; destruct b; (split; [reflexivity|repeat constructor]).
  - intros b; destruct b; (split; [reflexivity|repeat constructor]).
  - reflexivity.
Defined.

(** X10: the machine the overlapped loop leaves behind (result, both
    copies, log, compute unit) is the same whenever the kernel bodies
    run between their start and their wait, be the invocations
    completed, faulted or raising. *)
Theorem overlapped_loop_is_race_free sched sched' outcome size n m :
  (1 <= n)%nat -> pending m = None ->
  (forall b, (n <= length (mem_get b (host m)))%nat) ->
  overlapped_loop sched outcome size n m = overlapped_loop sched' outcome size n m.
Proof.
  intros Hn Pm L.
  assert (R : ready n m) by (split; [exact Pm|exact L]).
  rewrite !overlapped_loop_refines by exact Hn.
  destruct (first_raise outcome n) as [Ho|(k & Hk & Hr & Hb)].
  - apply schedule_independent; [lia|exact R|exact Ho].
  - rewrite !(run_overlapped_raise _ outcome size n 1 k m) by (try assumption; lia).
    reflexivity.
Qed.

Lemma overlapped_loop_is_race_free_witness :
  overlapped_loop (fun _ => 0%nat) (fun i => if (i =? 1)%nat then Faulted else Completed)
    2 3 (boot example_host example_dev) =
  overlapped_loop (fun i => (3 - i)%nat) (fun i => if (i =? 1)%nat then Faulted else Completed)
    2 3 (boot example_host example_dev).
Proof.
  apply (overlapped_loop_is_race_free (fun _ => 0%nat) (fun i => (3 - i)%nat)
           (fun i => if (i =? 1)%nat then Faulted else Completed) 2 3).
  - lia.
  - reflexivity.
  - intros b; destruct b; simpl; lia.
Defined.

Lemma all_overlapped_app cur t1 t2 :
  all_overlapped cur (t1 ++ t2) =
    all_overlapped cur t1 && all_overlapped (outstanding cur t1) t2.
Proof.
  revert cur. induction t1 as [|e t1 IH]; intros cur; simpl; [reflexivity|].
  rewrite IH, andb_assoc. reflexivity.
Qed.

Lemma all_overlapped_sound cur t :
  all_overlapped cur t = true ->
  forall pre e post, t = pre ++ e :: post -> event_view e <> None ->
    exists h, outstanding cur pre = Some h.
Proof.
  revert cur. induction t as [|x t IH]; intros cur H pre e post E Hv.
  - destruct pre; discriminate.
  - simpl in H. apply andb_prop in H as [H1 H2].
    destruct pre as [|y pre]; simpl in E; injection E as <- ->.
    + unfold outstanding. simpl. destruct cur as [h|]; [exists h; reflexivity|].
      destruct x; try discriminate; exfalso; apply Hv; reflexivity.
    + apply (IH _ H2 pre e post eq_refl Hv).
Qed.

Lemma all_overlapped_steps size n d l :
  all_overlapped None (flat_map (step_events size n d) l) = true /\
  outstanding None (flat_map (step_events size n d) l) = None.
Proof.
  induction l as [|i l [IH1 IH2]]; cbn [flat_map]; [split; reflexivity|].
  assert (S : all_overlapped None (step_events size n d i) = true /\
              outstanding None (step_events size n d i) = None).
  { unfold step_events, in_events, out_events, outstanding.
    destruct (i + d <? n)%nat; destruct (d <=? i)%nat; split; reflexivity. }
  destruct S as [S1 S2]. rewrite all_overlapped_app, outstanding_app, S1, S2.
  split; assumption.
Qed.

(** X11: in the overlapped loop every transfer, apart from the two
    priming transfers at the start and the drain at the end, is issued
    while an invocation is outstanding; in the serial loop no transfer
    ever is. *)
Theorem transfers_overlap_the_kernel sched outcome size n hm dm :
  (1 <= n)%nat -> has_slices n hm ->
  (forall i, (i < n)%nat -> outcome i <> Raises) ->
  let ts := log (snd (serial_loop outcome size n (boot hm dm))) in
  let tl := log (snd (overlapped_loop sched outcome size n (boot hm dm))) in
  (forall pre e post, tl = pre ++ e :: post -> event_view e <> None ->
     (2 <= length pre)%nat -> (1 <= length post)%nat ->
     exists h, outstanding None pre = Some h) /\
  (forall pre e post, ts = pre ++ e :: post -> outstanding None pre = None).
Proof.
  intros Hn H Ho ts tl. unfold ts, tl.
  rewrite log_overlapped_loop by assumption.
  rewrite serial_loop_boot by assumption. cbn [snd]. rewrite log_serial.
  change (log (boot hm dm)) with (@nil event). rewrite app_nil_l.
  split.
  - intros pre e post E Hv Lpre Lpost.
    assert (T : exists a b c, overlapped_trace size n 1 =
               a :: b :: flat_map (step_events size n 1) (seq 0 n) ++ [c] /\
               outstanding None [a; b] = None).
    { unfold overlapped_trace. cbn [seq flat_map]. rewrite !app_nil_r.
      unfold in_events, out_events. eexists _, _, _. split; reflexivity. }
    destruct T as (a & b & c & T & Tab). rewrite T in E. clear T.
    destruct pre as [|p1 [|p2 pre]]; simpl in Lpre; try lia.
    cbn [app] in E. injection E as <- <- E.
    destruct (exists_last (l := post)) as (post' & y & ->);
      [intros ->; simpl in Lpost; lia|].
    rewrite app_comm_cons, app_assoc in E.
    apply app_inj_tail in E as [E _].
    destruct (all_overlapped_steps size n 1 (seq 0 n)) as [A _].
    destruct (all_overlapped_sound None _ A pre e post' E Hv) as [h Hh].
    exists h. change (a :: b :: pre) with ([a; b] ++ pre).
    rewrite outstanding_app, Tab. exact Hh.
  - intros pre e post E.
    assert (G : forall t : list event,
               (forall x, In x t -> is_invocation x = false) ->
               outstanding None t = None).
    { induction t as [|x t IH]; intros Hx; [reflexivity|].
      unfold outstanding. simpl.
      assert (Hxx : is_invocation x = false) by (apply Hx; left; reflexivity).
      destruct x; try discriminate; apply IH; intros z Hz; apply Hx; right; exact Hz. }
    apply G. intros x Hx.
    assert (Hin : In x (flat_map (serial_events size) (seq 0 n)))
      by (rewrite E; apply in_app_iff; left; exact Hx).
    apply in_flat_map in Hin as (i & _ & Hin).
    unfold serial_events, in_events, out_events in Hin. simpl in Hin.
    intuition (subst; reflexivity).
Qed.

Lemma transfers_overlap_the_kernel_witness :
  let ts := log (snd (serial_loop (fun _ => Completed) 2 3 (boot example_host example_dev))) in
  let tl := log (snd (overlapped_loop (fun _ => 1%nat) (fun _ => Completed) 2 3
                        (boot example_host example_dev))) in
  (forall pre e post, tl = pre ++ e :: post -> event_view e <> None ->
     (2 <= length pre)%nat -> (1 <= length post)%nat ->
     exists h, outstanding None pre = Some h) /\
  (forall pre e post, ts = pre ++ e :: post -> outstanding None pre = None).
Proof.
  apply (transfers_overlap_the_kernel (fun _ => 1%nat) (fun _ => Completed) 2 3).
  - lia.
  - intros b; destruct b; reflexivity.
  - intros i _; discriminate.
Defined.
